(** * binary-gap: the CTZ primitives and the binary-gap solver

    A shallow embedding of [binary-gap.cpp].  Values of type [unsigned]
    are integers in [0, 2^32) with the wrap-around written out; values of
    type [int] are integers in [-2^31, 2^31). *)

From Stdlib Require Import ZArith List Bool Lia Sorted.
Import ListNotations.
Local Open Scope Z_scope.

(** ** 32-bit unsigned arithmetic *)

(** [sizeof(unsigned) * CHAR_BIT] *)
Definition bits : Z := 32.

(** Reduction of an integer to the range of [unsigned]. *)
Definition wrap32 (z : Z) : Z := z mod 2 ^ bits.

(** [unsigned(N)] for an [int] N. *)
Definition to_unsigned (N : Z) : Z := wrap32 N.

(** [-x] on [unsigned]. *)
Definition neg32 (x : Z) : Z := wrap32 (- x).

(** [~x] on [unsigned]. *)
Definition not32 (x : Z) : Z := wrap32 (Z.lnot x).

(** [x - y], [x + y] and [x * y] on [unsigned]. *)
Definition sub32 (x y : Z) : Z := wrap32 (x - y).
Definition add32 (x y : Z) : Z := wrap32 (x + y).
Definition mul32 (x y : Z) : Z := wrap32 (x * y).

Definition is_u32 (x : Z) : Prop := 0 <= x < 2 ^ 32.

(** ** The software CTZ variants *)

(** [ctz_simple]: the [for] loop runs while [bit < bits]; [fuel] bounds the
    number of times its condition is evaluated. *)
Fixpoint ctz_simple_loop (fuel : nat) (bit x : Z) : Z :=
  match fuel with
  | O => bits
  | S fuel' =>
      if bit <? bits then
        if negb (Z.land x 1 =? 0) then bit
        else ctz_simple_loop fuel' (bit + 1) (Z.shiftr x 1)
      else bits
  end.

Definition ctz_simple (x : Z) : Z := ctz_simple_loop 33 0 x.

(** [broadcast<T>] at [T = unsigned]: [((~T(0)) / 0xff) * x]. *)
Definition broadcast (x : Z) : Z := mul32 (not32 0 / 255) x.

(** [popcnt<T>] at [T = unsigned]. *)
Definition popcnt (x : Z) : Z :=
  let b_0x01 := broadcast 1 in
  let b_0x55 := broadcast 85 in
  let b_0x33 := broadcast 51 in
  let b_0x0f := broadcast 15 in
  let x := sub32 x (Z.land (Z.shiftr x 1) b_0x55) in
  let x := add32 (Z.land x b_0x33) (Z.land (Z.shiftr x 2) b_0x33) in
  let x := Z.land (add32 x (Z.shiftr x 4)) b_0x0f in
  Z.shiftr (mul32 x b_0x01) ((4 - 1) * 8).

Definition ctz_bits (x : Z) : Z :=
  popcnt (sub32 (Z.land x (neg32 x)) 1).

Definition ctz_bsearch (x : Z) : Z :=
  if x =? 0 then 32
  else
    let n := 0 in
    let '(n, x) :=
      if Z.land x 65535 =? 0 then (n + 16, Z.shiftr x 16) else (n, x) in
    let '(n, x) :=
      if Z.land x 255 =? 0 then (n + 8, Z.shiftr x 8) else (n, x) in
    let '(n, x) :=
      if Z.land x 15 =? 0 then (n + 4, Z.shiftr x 4) else (n, x) in
    let '(n, x) :=
      if Z.land x 3 =? 0 then (n + 2, Z.shiftr x 2) else (n, x) in
    let n := if Z.land x 1 =? 0 then n + 1 else n in
    n.

Definition debruijn32 : Z := 125613361.   (* 0x077CB531 *)

Definition index32 : list Z :=
  [ 0;  1; 28;  2; 29; 14; 24; 3; 30; 22; 20; 15; 25; 17;  4;  8;
   31; 27; 13; 23; 21; 19; 16; 7; 26; 12; 18;  6; 11;  5; 10;  9].

Definition ctz_debruijn (x : Z) : Z :=
  if x =? 0 then 32
  else
    nth (Z.to_nat
           (Z.land (Z.shiftr (mul32 (Z.land x (neg32 x)) debruijn32) 27) 31))
        index32 0.

(** ** The platform CTZ *)

(** Number of trailing zero digits of a binary numeral. *)
Fixpoint pos_tz (p : positive) : Z :=
  match p with
  | xO q => Z.succ (pos_tz q)
  | _ => 0
  end.

(** The reference CTZ: the index of the lowest set bit, and the sentinel
    [bits] for zero. *)
Definition ctz_ref (x : Z) : Z :=
  match x with
  | Zpos p => pos_tz p
  | _ => bits
  end.

(** Modelled from the spec: the compiler builtin [__builtin_ctz] is not
    defined in the repository.  On a nonzero operand it returns what the
    CTZ contract requires, the number of trailing zero bits counted from
    the least significant bit.  The compiler defines no result for a zero
    operand (undefined behaviour), which is [None] here. *)
Definition builtin_ctz (x : Z) : option Z :=
  match x with
  | Zpos p => Some (pos_tz p)
  | _ => None
  end.

(** Modelled from the spec: the intrinsic [_BitScanReverse] of [<intrin.h>]
    is not defined in the repository.  It scans from the most significant
    bit and stores the index of the first set bit it finds. *)
Definition BitScanReverse (x : Z) : Z := Z.log2 x.

(** Modelled from the spec: [ffs] of [<strings.h>] is not defined in the
    repository.  It returns one plus the index of the least significant
    set bit of the operand's bit pattern, and 0 for zero. *)
Definition ffs (x : Z) : Z :=
  match x with
  | Zpos p => pos_tz p + 1
  | _ => 0
  end.

(** The preprocessor selects one definition of [ctz]. *)
Inductive toolchain : Type :=
| GNUC        (* defined(__GNUC__) *)
| MSC         (* defined(_MSC_VER) *)
| STRINGS_H   (* __has_include(<strings.h>) *)
| PORTABLE.   (* #else *)

(** [ctz]; [None] is undefined behaviour. *)
Definition ctz (tc : toolchain) (x : Z) : option Z :=
  match tc with
  | GNUC => builtin_ctz x
  | MSC =>
      if x =? 0 then Some 32
      else let r := BitScanReverse x in Some r
  | STRINGS_H =>
      if x =? 0 then Some 32
      else let fs := ffs x in Some (fs - 1)
  | PORTABLE => Some (ctz_debruijn x)
  end.

(** [cto]: count trailing one bits. *)
Definition cto (tc : toolchain) (x : Z) : option Z := ctz tc (not32 x).

(** ** Outcomes and the call log *)

Inductive exn : Type := out_of_range.

Inductive outcome (A : Type) : Type :=
| Returned (a : A)
| Thrown (e : exn)
| Undefined
| OutOfFuel.
Arguments Returned {A} a.
Arguments Thrown {A} e.
Arguments Undefined {A}.
Arguments OutOfFuel {A}.

(** What a run records: every argument passed to [ctz], and the value of
    [n] at the start of every execution of the loop body. *)
Inductive event : Type :=
| CallCtz (x : Z)
| LoopIter (n : Z).

Definition M (A : Type) : Type := (outcome A * list event)%type.

Definition ret {A} (a : A) : M A := (Returned a, []).

Definition bind {A B} (m : M A) (f : A -> M B) : M B :=
  match fst m with
  | Returned a => let r := f a in (fst r, snd m ++ snd r)
  | Thrown e => (Thrown e, snd m)
  | Undefined => (Undefined, snd m)
  | OutOfFuel => (OutOfFuel, snd m)
  end.

Notation "x <- m ;; k" := (bind m (fun x => k))
  (at level 61, m at next level, right associativity).

Definition emit (e : event) : M unit := (Returned tt, [e]).

Definition lift {A} (o : option A) : M A :=
  match o with
  | Some a => ret a
  | None => (Undefined, [])
  end.

(** A call of [ctz] or [cto] from the solver. *)
Definition call_ctz (tc : toolchain) (x : Z) : M Z :=
  _ <- emit (CallCtz x) ;; lift (ctz tc x).

Definition call_cto (tc : toolchain) (x : Z) : M Z :=
  call_ctz tc (not32 x).

(** [n >> k] on [unsigned]: undefined unless [0 <= k < bits]. *)
Definition shr (n k : Z) : M Z :=
  if (0 <=? k) && (k <? bits) then ret (Z.shiftr n k) else (Undefined, []).

(** ** The solver *)

(** One execution of the body of [while (n)]. *)
Definition loop_body (tc : toolchain) (n max : Z) : M (Z * Z) :=
  tz <- call_ctz tc n ;;
  let max := Z.max tz max in
  n <- shr n tz ;;
  o <- call_cto tc n ;;
  n <- shr n o ;;
  ret (n, max).

(** [while (n) { ... }]; every execution of the body takes one unit of
    fuel. *)
Fixpoint while_loop (tc : toolchain) (fuel : nat) (n max : Z) : M Z :=
  if n =? 0 then ret max
  else
    match fuel with
    | O => (OutOfFuel, [])
    | S fuel' =>
        _ <- emit (LoopIter n) ;;
        s <- loop_body tc n max ;;
        while_loop tc fuel' (fst s) (snd s)
    end.

(** The two statements before the loop. *)
Definition strip (tc : toolchain) (n : Z) : M Z :=
  tz <- call_ctz tc n ;;
  n <- shr n tz ;;
  o <- call_cto tc n ;;
  shr n o.

Definition solution_fuel (tc : toolchain) (fuel : nat) (N : Z) : M Z :=
  if N <? 1 then (Thrown out_of_range, [])
  else
    let n := to_unsigned N in
    n <- strip tc n ;;
    let max := 0 in
    while_loop tc fuel n max.

(** [solution], as GCC and Clang build it. *)
Definition solution (N : Z) : M Z := solution_fuel GNUC 32 N.

(** ** What a run shows *)

(** The value returned. *)
Definition result {A} (m : M A) : outcome A := fst m.

Definition args_of (tr : list event) : list Z :=
  flat_map (fun e => match e with CallCtz x => [x] | LoopIter _ => [] end) tr.

Definition heads_of (tr : list event) : list Z :=
  flat_map (fun e => match e with CallCtz _ => [] | LoopIter n => [n] end) tr.

(** The arguments of the calls of [ctz], in order. *)
Definition ctz_args {A} (m : M A) : list Z := args_of (snd m).

(** The values of [n] at the start of the executions of the loop body. *)
Definition loop_values {A} (m : M A) : list Z := heads_of (snd m).

(** The number of executions of the loop body. *)
Definition iterations {A} (m : M A) : nat := length (loop_values m).

(** * Specifications *)

(** ** The CTZ contract *)

(** [i] is the index of the lowest set bit of [x]. *)
Definition lowest_set (x i : Z) : Prop :=
  Z.testbit x i = true /\ forall j, 0 <= j < i -> Z.testbit x j = false.

(** The CTZ contract: the index of the lowest set bit, 32 for zero. *)
Definition ctz_contract (x r : Z) : Prop :=
  (x = 0 -> r = 32) /\ (x <> 0 -> lowest_set x r).

(** One halving step of [ctz_bsearch]. *)
Definition halve (w : Z) (s : Z * Z) : Z * Z :=
  let '(n, x) := s in
  if Z.land x (Z.ones w) =? 0 then (n + w, Z.shiftr x w) else (n, x).

(** ** Binary gaps *)

(** The zero bits at positions [p, p + len) of [N] form a binary gap: a
    nonempty run of zeros with a one bit immediately below it and a one
    bit immediately above it. *)
Definition is_gap (N p len : Z) : Prop :=
  1 <= p /\ 1 <= len /\
  Z.testbit N (p - 1) = true /\
  (forall j, p <= j < p + len -> Z.testbit N j = false) /\
  Z.testbit N (p + len) = true.

(** [m] is the length of the longest binary gap of [N], and 0 when [N] has
    none. *)
Definition longest_gap (N m : Z) : Prop :=
  (forall p len, is_gap N p len -> len <= m) /\
  ((exists p, is_gap N p m) \/
   (m = 0 /\ forall p len, ~ is_gap N p len)).

(** The one bits of [N] are contiguous: [len] ones above [lo] zeros. *)
Definition at_most_one_block (N : Z) : Prop :=
  exists lo len, 0 <= lo /\ 0 <= len /\ N = Z.shiftl (Z.ones len) lo.

(** [i] is the index of the lowest clear bit of [x]. *)
Definition lowest_clear (x i : Z) : Prop :=
  Z.testbit x i = false /\ forall j, 0 <= j < i -> Z.testbit x j = true.

(** A [ctz] that returns the index of the lowest set bit of every nonzero
    operand. *)
Definition conforming (tc : toolchain) : Prop :=
  forall x, 0 < x < 2 ^ 32 -> ctz tc x = Some (ctz_ref x).

(** What [n >>= ctz(n)] and [n >>= cto(n)] leave of [n]. *)
Definition skip_zeros (n : Z) : Z := Z.shiftr n (ctz_ref n).
Definition skip_ones (n : Z) : Z := Z.shiftr n (ctz_ref (not32 n)).

(** Above position [a], [N] has [tz] zeros, then [o] ones, then a zero. *)
Definition segment (N a tz o : Z) : Prop :=
  0 <= a /\ 0 <= tz /\ 1 <= o /\
  (forall j, a <= j < a + tz -> Z.testbit N j = false) /\
  (forall j, a + tz <= j < a + tz + o -> Z.testbit N j = true) /\
  Z.testbit N (a + tz + o) = false.

(** The invariant of [while (n)]: [p] bits of [N] have been shifted out,
    the last of them a one; [max] is the longest gap that ends below [p]. *)
Definition loop_inv (N p n max : Z) : Prop :=
  1 <= p /\ n = Z.shiftr N p /\
  Z.testbit N (p - 1) = true /\ Z.testbit N p = false /\
  0 <= max /\
  (forall q len, is_gap N q len -> q + len < p -> len <= max) /\
  (max = 0 \/ exists q, is_gap N q max).

(** What holds at every event of a run of [solution] on [N]: [ctz] is
    called on a nonzero 32-bit value; at the start of the loop body, [n] is
    [N] without its [p] low bits, [ctz] counts [tz] zeros that are a gap of
    [N], and a nonzero value is left once they are shifted out. *)
Definition event_ok (tc : toolchain) (N : Z) (e : event) : Prop :=
  match e with
  | CallCtz x => 0 < x < 2 ^ 32
  | LoopIter n =>
      exists p tz,
        ctz tc n = Some tz /\ n = Z.shiftr N p /\
        Z.shiftr n tz <> 0 /\ Z.testbit (Z.shiftr n tz) 0 = true /\
        is_gap N p tz
  end.

(** The assertions of [main] on [solution]: argument and expected value. *)
Definition main_assertions : list (Z * Z) :=
  [ (9, 2); (529, 4); (15, 0); (32, 0); (1041, 5); (2147483647, 0);
    (5, 1); (9, 2); (17, 3); (33, 4); (65, 5); (129, 6); (257, 7);
    (513, 8); (1025, 9); (2049, 10);
    (10, 1); (18, 2); (34, 3); (66, 4); (130, 5); (258, 6); (514, 7);
    (1026, 8); (2050, 9); (4098, 10);
    (0x55555555, 1); (0x2AAAAAAA, 1);
    (0x9999999, 2); (0x66, 2); (0x666666, 2);
    (4099, 10); (4101, 9); (4105, 8); (4113, 7); (4129, 6); (4161, 5);
    (4225, 6); (4353, 7); (4609, 8); (5121, 9); (6145, 10);
    (0x7FFFFFFF, 0); (0x3FFFFFFF, 0); (0x1FFFFFFF, 0);
    (0x7FFFFFFD, 1); (0x7FFFFFFB, 1); (0x7FFFFFF7, 1); (0x7FFFFFEF, 1);
    (0x7FFFFFDF, 1); (0x7FFFFFBF, 1); (0x7FFFFF7F, 1);
    (0x7FFFFFF9, 2) ].

(** ** Further specifications *)

(** The four software variants. *)
Definition ctz_variants : list (Z -> Z) :=
  [ctz_simple; ctz_bits; ctz_bsearch; ctz_debruijn].

(** The number of one bits among the [k] low bits of [x]. *)
Definition bit_count (k : nat) (x : Z) : Z :=
  Z.of_nat (length (filter (fun i => Z.testbit x (Z.of_nat i)) (seq 0 k))).

(** The three masking steps of [popcnt] on a 16-bit half of the word. *)
Definition pairs16 (a : Z) : Z := a - Z.land (Z.shiftr a 1) 21845.
Definition nibbles16 (a : Z) : Z :=
  Z.land a 13107 + Z.land (Z.shiftr a 2) 13107.
Definition octets16 (a : Z) : Z := Z.land (a + Z.shiftr a 4) 3855.

(** What the proof of [popcnt] needs of a 16-bit half [a]: the steps stay
    within 16 bits and leave room for the nibble that the shift by 4
    brings in from the other half, and the two octets left by the steps
    sum to the number of one bits of [a]. *)
Definition half_ok (a : Z) : bool :=
  let a1 := pairs16 a in
  let a2 := nibbles16 a1 in
  let a3 := octets16 a2 in
  let c0 := Z.land a3 255 in
  let c1 := Z.shiftr a3 8 in
  (0 <=? a1) && (a1 <? 65536) && (a2 <? 65536) &&
  (a2 + Z.shiftr a2 4 <? 49152) && (Z.land a2 15 <=? 4) &&
  (c0 <=? 8) && (c1 <=? 8) && (c0 + c1 =? bit_count 16 a).

(** [P] holds on [z], [z + 1], ..., [z + n - 1]. *)
Fixpoint all_from (P : Z -> bool) (n : nat) (z : Z) : bool :=
  match n with
  | O => true
  | S n' => P z && all_from P n' (z + 1)
  end.

(** Closes a goal in which a bit of [N] is both set and clear. *)
Ltac bitclash :=
  match goal with
  | Ht : Z.testbit ?N ?j = true, Hf : forall j, _ -> Z.testbit ?N j = false
    |- _ => rewrite Hf in Ht by lia; discriminate Ht
  | Hf : Z.testbit ?N ?j = false, Ht : forall j, _ -> Z.testbit ?N j = true
    |- _ => rewrite Ht in Hf by lia; discriminate Hf
  | Ht : Z.testbit ?N ?j = true, Hf : Z.testbit ?N ?k = false |- _ =>
      replace k with j in Hf by lia; rewrite Hf in Ht; discriminate Ht
  end.

(** * Properties *)

(** ** The lowest set bit *)

Lemma pos_tz_nonneg (p : positive) : 0 <= pos_tz p.
Proof. induction p; simpl; lia. Qed.

Lemma lowest_set_nonneg x i : lowest_set x i -> 0 <= i.
Proof.
  intros [Hi _]. destruct (Z.neg_nonneg_cases i) as [Hn|]; trivial.
  rewrite (Z.testbit_neg_r x i Hn) in Hi. discriminate.
Qed.

Lemma lowest_set_le x i j :
  lowest_set x i -> Z.testbit x j = true -> i <= j.
Proof.
  intros [_ Hlow] Hj.
  destruct (Z.le_gt_cases i j) as [|Hlt]; trivial.
  assert (0 <= j).
  { destruct (Z.neg_nonneg_cases j) as [Hn|]; trivial.
    rewrite (Z.testbit_neg_r x j Hn) in Hj. discriminate. }
  rewrite Hlow in Hj by lia. discriminate.
Qed.

Lemma lowest_set_unique x i j : lowest_set x i -> lowest_set x j -> i = j.
Proof.
  intros Hi Hj. apply Z.le_antisymm.
  - apply (lowest_set_le x i j Hi), Hj.
  - apply (lowest_set_le x j i Hj), Hi.
Qed.

Lemma lowest_set_pos (p : positive) : lowest_set (Zpos p) (pos_tz p).
Proof.
  induction p as [p _|p [IHt IHl]|].
  - split; [reflexivity | simpl; intros; lia].
  - pose proof (pos_tz_nonneg p) as Hp. simpl pos_tz. split.
    + change (Zpos p~0) with (2 * Zpos p).
      rewrite Z.testbit_even_succ by trivial. exact IHt.
    + intros j Hj. change (Zpos p~0) with (2 * Zpos p).
      destruct (Z.eq_dec j 0) as [->|Hne].
      * apply Z.testbit_even_0.
      * replace j with (Z.succ (j - 1)) by lia.
        rewrite Z.testbit_even_succ by lia. apply IHl. lia.
  - split; [reflexivity | simpl; intros; lia].
Qed.

Lemma lowest_set_ref x : 0 < x -> lowest_set x (ctz_ref x).
Proof. destruct x; try lia. intros _. apply lowest_set_pos. Qed.

Lemma testbit_above x k j :
  0 <= x < 2 ^ k -> k <= j -> Z.testbit x j = false.
Proof.
  intros [H0 Hk] Hj.
  destruct (Z.eq_dec x 0) as [->|Hx]; [apply Z.bits_0|].
  apply Z.bits_above_log2; trivial.
  assert (Z.log2 x < k) by (apply Z.log2_lt_pow2; lia). lia.
Qed.

Lemma lowest_set_lt x i k : 0 <= x < 2 ^ k -> lowest_set x i -> i < k.
Proof.
  intros Hx [Hi _]. destruct (Z.lt_ge_cases i k) as [|Hge]; trivial.
  rewrite (testbit_above x k i Hx Hge) in Hi. discriminate.
Qed.

Lemma ctz_ref_range x : 0 < x < 2 ^ 32 -> 0 <= ctz_ref x < 32.
Proof.
  intros Hx. pose proof (lowest_set_ref x (proj1 Hx)) as H. split.
  - exact (lowest_set_nonneg _ _ H).
  - apply (lowest_set_lt x _ 32); [lia | exact H].
Qed.

Lemma lowest_set_shiftr x i k :
  lowest_set x i -> 0 <= k <= i -> lowest_set (Z.shiftr x k) (i - k).
Proof.
  intros [Hi Hlow] Hk. split.
  - rewrite Z.shiftr_spec by lia. replace (i - k + k) with i by lia. exact Hi.
  - intros j Hj. rewrite Z.shiftr_spec by lia. apply Hlow. lia.
Qed.

Lemma land_1_eqb x : (Z.land x 1 =? 0) = negb (Z.testbit x 0).
Proof.
  change 1 with (Z.ones 1) at 1. rewrite Z.land_ones by lia.
  rewrite Z.bit0_eqb. change (2 ^ 1) with 2.
  pose proof (Z.mod_pos_bound x 2 eq_refl).
  destruct (x mod 2 =? 1) eqn:E1; destruct (x mod 2 =? 0) eqn:E0; trivial; lia.
Qed.

Lemma land_ones_eqb x i w :
  lowest_set x i -> 0 <= w -> (Z.land x (Z.ones w) =? 0) = (w <=? i).
Proof.
  intros Hx Hw. pose proof (lowest_set_nonneg _ _ Hx) as Hi.
  destruct Hx as [Ht Hlow].
  destruct (w <=? i) eqn:E.
  - apply Z.leb_le in E. apply Z.eqb_eq. apply Z.bits_inj'. intros j Hj.
    rewrite Z.land_spec, Z.bits_0.
    destruct (Z.lt_ge_cases j w).
    + rewrite Hlow by lia. reflexivity.
    + rewrite Z.ones_spec_high by lia. apply andb_false_r.
  - apply Z.leb_gt in E. apply Z.eqb_neq. intros H0.
    assert (Hb : Z.testbit (Z.land x (Z.ones w)) i = true).
    { rewrite Z.land_spec, Ht, Z.ones_spec_low by lia. reflexivity. }
    rewrite H0, Z.bits_0 in Hb. discriminate.
Qed.

(** ** Isolating the lowest set bit: [x & -x] *)

Lemma land_double a b : Z.land (2 * a) (2 * b) = 2 * Z.land a b.
Proof.
  apply Z.bits_inj'. intros n Hn.
  rewrite Z.land_spec, !Z.double_bits, Z.land_spec. reflexivity.
Qed.

Lemma land_odd_opp a : Z.land (2 * a + 1) (- (2 * a + 1)) = 1.
Proof.
  replace (- (2 * a + 1)) with (2 * Z.lnot a + 1) by (unfold Z.lnot; lia).
  apply Z.bits_inj'. intros n Hn. rewrite Z.land_spec.
  destruct (Z.eq_dec n 0) as [->|Hne].
  - rewrite !Z.testbit_odd_0. reflexivity.
  - replace n with (Z.succ (n - 1)) by lia.
    rewrite !Z.testbit_odd_succ by lia.
    rewrite Z.lnot_spec by lia. rewrite andb_negb_r.
    change 1 with (2 * 0 + 1). rewrite Z.testbit_odd_succ by lia.
    symmetry. apply Z.bits_0.
Qed.

Lemma land_opp_pos (p : positive) :
  Z.land (Zpos p) (- Zpos p) = 2 ^ pos_tz p.
Proof.
  induction p as [p _|p IH|].
  - change (Zpos p~1) with (2 * Zpos p + 1). apply land_odd_opp.
  - change (Zpos p~0) with (2 * Zpos p).
    replace (- (2 * Zpos p)) with (2 * - Zpos p) by lia.
    rewrite land_double, IH. simpl pos_tz.
    rewrite Z.pow_succ_r by apply pos_tz_nonneg. reflexivity.
  - reflexivity.
Qed.

(** [x & -x] on [unsigned] is the power of two of the lowest set bit. *)
Lemma lowbit32 x : 0 < x < 2 ^ 32 -> Z.land x (neg32 x) = 2 ^ ctz_ref x.
Proof.
  intros Hx. pose proof (ctz_ref_range x Hx) as Hr.
  unfold neg32, wrap32, bits.
  rewrite <- Z.land_ones, Z.land_assoc by lia.
  destruct x as [|p|p]; try lia.
  change (- Zpos p) with (Z.opp (Zpos p)).
  rewrite land_opp_pos, Z.land_ones by lia. simpl ctz_ref in *.
  apply Z.mod_small. split; [apply Z.pow_nonneg; lia|].
  apply Z.pow_lt_mono_r; lia.
Qed.

(** A property checked on 0, ..., k-1 holds below k. *)
Lemma forall_below (P : Z -> bool) (k : nat) :
  forallb P (map Z.of_nat (seq 0 k)) = true ->
  forall i, 0 <= i < Z.of_nat k -> P i = true.
Proof.
  intros H i Hi. rewrite forallb_forall in H. apply H.
  apply in_map_iff. exists (Z.to_nat i). split; [lia|].
  apply in_seq. lia.
Qed.

(** ** The four software variants meet the contract *)

Lemma ctz_simple_loop_spec (fuel : nat) :
  forall b x i,
    lowest_set x i -> 0 <= b -> b + i < bits ->
    (Z.to_nat i < fuel)%nat ->
    ctz_simple_loop fuel b x = b + i.
Proof.
  induction fuel as [|fuel IH]; intros b x i Hx Hb Hlt Hfuel; [lia|].
  pose proof (lowest_set_nonneg _ _ Hx) as Hi.
  simpl. replace (b <? bits) with true by (symmetry; apply Z.ltb_lt; lia).
  rewrite land_1_eqb, negb_involutive.
  destruct (Z.eq_dec i 0) as [->|Hne].
  - rewrite (proj1 Hx). lia.
  - rewrite (proj2 Hx 0) by lia.
    rewrite (IH (b + 1) (Z.shiftr x 1) (i - 1)); try lia.
    apply lowest_set_shiftr; [exact Hx | lia].
Qed.

Lemma ctz_simple_ref x : is_u32 x -> ctz_simple x = ctz_ref x.
Proof.
  intros Hx. destruct (Z.eq_dec x 0) as [->|Hne]; [reflexivity|].
  assert (Hpos : 0 < x < 2 ^ 32) by (unfold is_u32 in Hx; lia).
  pose proof (ctz_ref_range x Hpos) as Hr.
  unfold ctz_simple.
  rewrite (ctz_simple_loop_spec 33 0 x (ctz_ref x)); unfold bits; try lia.
  apply lowest_set_ref; lia.
Qed.

Lemma popcnt_low_mask :
  forall i, 0 <= i < 32 -> popcnt (sub32 (2 ^ i) 1) = i.
Proof.
  intros i Hi. apply Z.eqb_eq.
  apply (forall_below (fun i => popcnt (sub32 (2 ^ i) 1) =? i) 32);
    [vm_compute; reflexivity | lia].
Qed.

Lemma ctz_bits_ref x : is_u32 x -> ctz_bits x = ctz_ref x.
Proof.
  intros Hx. destruct (Z.eq_dec x 0) as [->|Hne]; [reflexivity|].
  assert (Hpos : 0 < x < 2 ^ 32) by (unfold is_u32 in Hx; lia).
  unfold ctz_bits. rewrite lowbit32 by trivial.
  apply popcnt_low_mask, ctz_ref_range, Hpos.
Qed.

Lemma ctz_bsearch_halve x :
  x <> 0 ->
  ctz_bsearch x =
  let '(n, y) := halve 2 (halve 4 (halve 8 (halve 16 (0, x)))) in
  if Z.land y 1 =? 0 then n + 1 else n.
Proof.
  intros Hx. unfold ctz_bsearch, halve.
  apply Z.eqb_neq in Hx. rewrite Hx.
  change (Z.ones 16) with 65535. change (Z.ones 8) with 255.
  change (Z.ones 4) with 15. change (Z.ones 2) with 3.
  repeat (match goal with
          | |- context [if ?c then _ else _] => destruct c
          end; cbv beta iota);
    reflexivity.
Qed.

Lemma halve_spec w n x i :
  lowest_set x i -> 0 < w -> i < 2 * w ->
  exists i',
    lowest_set (snd (halve w (n, x))) i' /\ i' < w /\
    fst (halve w (n, x)) + i' = n + i.
Proof.
  intros Hx Hw Hi. unfold halve.
  rewrite (land_ones_eqb x i w Hx) by lia.
  destruct (w <=? i) eqn:E.
  - apply Z.leb_le in E. exists (i - w). simpl. repeat split; try lia.
    + apply (proj1 (lowest_set_shiftr x i w Hx (conj (Z.lt_le_incl _ _ Hw) E))).
    + apply (proj2 (lowest_set_shiftr x i w Hx (conj (Z.lt_le_incl _ _ Hw) E))).
  - apply Z.leb_gt in E. exists i. simpl. repeat split; try lia; apply Hx.
Qed.

Lemma ctz_bsearch_ref x : is_u32 x -> ctz_bsearch x = ctz_ref x.
Proof.
  intros Hx. destruct (Z.eq_dec x 0) as [->|Hne]; [reflexivity|].
  assert (Hpos : 0 < x < 2 ^ 32) by (unfold is_u32 in Hx; lia).
  pose proof (ctz_ref_range x Hpos) as Hr.
  pose proof (lowest_set_ref x (proj1 Hpos)) as H0.
  rewrite ctz_bsearch_halve by trivial.
  destruct (halve_spec 16 0 x _ H0) as (i1 & H1 & L1 & E1); try lia.
  destruct (halve 16 (0, x)) as [n1 x1]. simpl in H1, E1.
  destruct (halve_spec 8 n1 x1 _ H1) as (i2 & H2 & L2 & E2); try lia.
  destruct (halve 8 (n1, x1)) as [n2 x2]. simpl in H2, E2.
  destruct (halve_spec 4 n2 x2 _ H2) as (i3 & H3 & L3 & E3); try lia.
  destruct (halve 4 (n2, x2)) as [n3 x3]. simpl in H3, E3.
  destruct (halve_spec 2 n3 x3 _ H3) as (i4 & H4 & L4 & E4); try lia.
  destruct (halve 2 (n3, x3)) as [n4 x4]. simpl in H4, E4.
  pose proof (lowest_set_nonneg _ _ H4) as P4.
  rewrite land_1_eqb.
  destruct (Z.eq_dec i4 0) as [->|Hi4].
  - rewrite (proj1 H4). simpl. lia.
  - rewrite (proj2 H4 0) by lia. simpl. lia.
Qed.

Lemma debruijn_index :
  forall i, 0 <= i < 32 ->
    nth (Z.to_nat (Z.land (Z.shiftr (mul32 (2 ^ i) debruijn32) 27) 31))
        index32 0 = i.
Proof.
  intros i Hi. apply Z.eqb_eq.
  apply (forall_below
           (fun i =>
              nth (Z.to_nat
                     (Z.land (Z.shiftr (mul32 (2 ^ i) debruijn32) 27) 31))
                  index32 0 =? i) 32);
    [vm_compute; reflexivity | lia].
Qed.

Lemma ctz_debruijn_ref x : is_u32 x -> ctz_debruijn x = ctz_ref x.
Proof.
  intros Hx. destruct (Z.eq_dec x 0) as [->|Hne]; [reflexivity|].
  assert (Hpos : 0 < x < 2 ^ 32) by (unfold is_u32 in Hx; lia).
  unfold ctz_debruijn. apply Z.eqb_neq in Hne. rewrite Hne.
  rewrite lowbit32 by trivial.
  apply debruijn_index, ctz_ref_range, Hpos.
Qed.

Lemma ctz_ref_contract x : 0 <= x -> ctz_contract x (ctz_ref x).
Proof.
  intros Hx. split.
  - intros ->. reflexivity.
  - intros Hne. apply lowest_set_ref. lia.
Qed.

(** C3.  For every 32-bit unsigned value x, zero included, the four
    software variants ctz_simple, ctz_bits, ctz_bsearch and ctz_debruijn
    return the same value, and that value is the one the CTZ contract
    requires: the index of the lowest set bit of x, and 32 for x = 0. *)
Theorem ctz_variants_agree (x : Z) :
  is_u32 x ->
  ctz_simple x = ctz_bits x /\
  ctz_bits x = ctz_bsearch x /\
  ctz_bsearch x = ctz_debruijn x /\
  ctz_contract x (ctz_debruijn x).
Proof.
  intros Hx.
  rewrite (ctz_simple_ref x Hx), (ctz_bits_ref x Hx),
    (ctz_bsearch_ref x Hx), (ctz_debruijn_ref x Hx).
  split; [reflexivity|]. split; [reflexivity|]. split; [reflexivity|].
  apply ctz_ref_contract, Hx.
Qed.

Lemma ctz_variants_agree_witness :
  is_u32 3840 /\
  ctz_simple 3840 = ctz_bits 3840 /\
  ctz_bits 3840 = ctz_bsearch 3840 /\
  ctz_bsearch 3840 = ctz_debruijn 3840 /\
  ctz_contract 3840 (ctz_debruijn 3840).
Proof.
  split; [unfold is_u32; lia | apply (ctz_variants_agree 3840)].
  unfold is_u32; lia.
Defined.

(** ** The platform CTZ on nonzero operands *)

Lemma conforming_GNUC : conforming GNUC.
Proof. intros x Hx. destruct x; try lia. reflexivity. Qed.

Lemma conforming_STRINGS_H : conforming STRINGS_H.
Proof.
  intros x Hx. destruct x as [|p|p]; try lia.
  simpl. f_equal. lia.
Qed.

Lemma conforming_PORTABLE : conforming PORTABLE.
Proof.
  intros x Hx. unfold ctz. rewrite ctz_debruijn_ref; trivial.
  unfold is_u32. lia.
Qed.

Lemma not32_eq x : 0 <= x < 2 ^ 32 -> not32 x = 2 ^ 32 - 1 - x.
Proof.
  intros Hx. unfold not32, wrap32, bits, Z.lnot.
  symmetry. apply Z.mod_unique with (q := -1); lia.
Qed.

Lemma not32_testbit x j :
  0 <= j < 32 -> Z.testbit (not32 x) j = negb (Z.testbit x j).
Proof.
  intros Hj. unfold not32, wrap32, bits.
  rewrite Z.mod_pow2_bits_low, Z.lnot_spec by lia. reflexivity.
Qed.

Lemma not32_range x : 0 <= x < 2 ^ 31 -> 2 ^ 31 <= not32 x < 2 ^ 32.
Proof. intros Hx. rewrite not32_eq by lia. lia. Qed.

Lemma cto_ref_spec x :
  0 <= x < 2 ^ 32 - 1 ->
  0 <= ctz_ref (not32 x) < 32 /\ lowest_clear x (ctz_ref (not32 x)).
Proof.
  intros Hx.
  assert (Hp : 0 < not32 x < 2 ^ 32) by (rewrite not32_eq; lia).
  pose proof (ctz_ref_range _ Hp) as Hr.
  destruct (lowest_set_ref _ (proj1 Hp)) as [Ht Hl].
  split; [exact Hr|]. split.
  - rewrite not32_testbit in Ht by lia.
    destruct (Z.testbit x (ctz_ref (not32 x))); trivial; discriminate.
  - intros j Hj. specialize (Hl j Hj). rewrite not32_testbit in Hl by lia.
    destruct (Z.testbit x j); trivial; discriminate.
Qed.

Lemma shiftr_bounds n k : 0 <= n -> 0 <= k -> 0 <= Z.shiftr n k <= n.
Proof.
  intros Hn Hk. rewrite Z.shiftr_div_pow2 by trivial.
  assert (0 < 2 ^ k) by (apply Z.pow_pos_nonneg; lia).
  split; [apply Z.div_pos; lia|].
  apply Z.div_le_upper_bound; nia.
Qed.

Lemma shiftr_halves n k : 0 <= n -> 1 <= k -> 2 * Z.shiftr n k <= n.
Proof.
  intros Hn Hk. replace k with (1 + (k - 1)) by lia.
  rewrite <- Z.shiftr_shiftr by lia.
  pose proof (shiftr_bounds (Z.shiftr n 1) (k - 1)) as H.
  pose proof (shiftr_bounds n 1 Hn) as H1.
  assert (2 * Z.shiftr n 1 <= n).
  { rewrite Z.shiftr_div_pow2 by lia. change (2 ^ 1) with 2.
    apply Z.mul_div_le. lia. }
  lia.
Qed.

Lemma skip_zeros_spec n :
  0 < n < 2 ^ 31 ->
  0 <= ctz_ref n < 32 /\ lowest_set n (ctz_ref n) /\
  0 < skip_zeros n <= n /\ Z.testbit (skip_zeros n) 0 = true.
Proof.
  intros Hn.
  assert (Hp : 0 < n < 2 ^ 32) by lia.
  pose proof (ctz_ref_range n Hp) as Hr.
  pose proof (lowest_set_ref n (proj1 Hp)) as Hl.
  assert (Hb : Z.testbit (skip_zeros n) 0 = true).
  { unfold skip_zeros. rewrite Z.shiftr_spec by lia. apply Hl. }
  pose proof (shiftr_bounds n (ctz_ref n)) as Hs.
  repeat split; try lia; try apply Hl; trivial.
  - destruct (Z.eq_dec (skip_zeros n) 0) as [E|]; [|unfold skip_zeros in *; lia].
    rewrite E in Hb. discriminate.
  - apply Hs; lia.
Qed.

Lemma skip_ones_spec n :
  0 <= n < 2 ^ 31 -> Z.testbit n 0 = true ->
  1 <= ctz_ref (not32 n) < 32 /\ lowest_clear n (ctz_ref (not32 n)) /\
  0 <= skip_ones n /\ 2 * skip_ones n <= n.
Proof.
  intros Hn Hodd. destruct (cto_ref_spec n) as [Hr Hl]; [lia|].
  assert (1 <= ctz_ref (not32 n)).
  { destruct (Z.eq_dec (ctz_ref (not32 n)) 0) as [E|]; [|lia].
    rewrite E in Hl. rewrite (proj1 Hl) in Hodd. discriminate. }
  repeat split; try lia; try apply Hl.
  - apply shiftr_bounds; lia.
  - apply shiftr_halves; lia.
Qed.

(** ** Runs of the solver's steps *)

Lemma bind_returned {A B} (a : A) (tr : list event) (f : A -> M B) :
  bind (Returned a, tr) f = (fst (f a), tr ++ snd (f a)).
Proof. reflexivity. Qed.

Lemma call_ctz_run tc x :
  conforming tc -> 0 < x < 2 ^ 32 ->
  call_ctz tc x = (Returned (ctz_ref x), [CallCtz x]).
Proof.
  intros Hc Hx. unfold call_ctz, emit. rewrite bind_returned, (Hc x Hx).
  reflexivity.
Qed.

Lemma shr_run n k : 0 <= k < 32 -> shr n k = (Returned (Z.shiftr n k), []).
Proof.
  intros Hk. unfold shr, bits.
  replace (0 <=? k) with true by (symmetry; apply Z.leb_le; lia).
  replace (k <? 32) with true by (symmetry; apply Z.ltb_lt; lia).
  reflexivity.
Qed.

Lemma strip_run tc n :
  conforming tc -> 0 < n < 2 ^ 31 ->
  strip tc n =
  (Returned (skip_ones (skip_zeros n)),
   [CallCtz n; CallCtz (not32 (skip_zeros n))]).
Proof.
  intros Hc Hn.
  destruct (skip_zeros_spec n Hn) as (Hr & _ & Hz & Hodd).
  destruct (skip_ones_spec (skip_zeros n)) as (Ho & _); [lia | trivial |].
  pose proof (not32_range (skip_zeros n)).
  unfold strip, call_cto.
  rewrite call_ctz_run, bind_returned by (trivial; lia). cbv beta.
  rewrite shr_run, bind_returned by lia. cbv beta.
  fold (skip_zeros n).
  rewrite call_ctz_run, bind_returned by (trivial; lia). cbv beta.
  rewrite shr_run by lia. reflexivity.
Qed.

Lemma loop_body_run tc n max :
  conforming tc -> 0 < n < 2 ^ 31 ->
  loop_body tc n max =
  (Returned (skip_ones (skip_zeros n), Z.max (ctz_ref n) max),
   [CallCtz n; CallCtz (not32 (skip_zeros n))]).
Proof.
  intros Hc Hn.
  destruct (skip_zeros_spec n Hn) as (Hr & _ & Hz & Hodd).
  destruct (skip_ones_spec (skip_zeros n)) as (Ho & _); [lia | trivial |].
  pose proof (not32_range (skip_zeros n)).
  unfold loop_body, call_cto.
  rewrite call_ctz_run, bind_returned by (trivial; lia). cbv beta zeta.
  rewrite shr_run, bind_returned by lia. cbv beta.
  fold (skip_zeros n).
  rewrite call_ctz_run, bind_returned by (trivial; lia). cbv beta.
  rewrite shr_run, bind_returned by lia. reflexivity.
Qed.

(** On a nonzero operand a conforming [ctz] meets the contract; below the
    all-ones value [cto] returns the index of the lowest clear bit. *)
Lemma ctz_nonzero_contract tc x :
  conforming tc -> 0 < x < 2 ^ 32 ->
  exists r, ctz tc x = Some r /\ 0 <= r < 32 /\ lowest_set x r.
Proof.
  intros Hc Hx. exists (ctz_ref x). split; [apply Hc, Hx|].
  split; [apply ctz_ref_range, Hx | apply lowest_set_ref; lia].
Qed.

Lemma cto_below_all_ones tc x :
  conforming tc -> 0 <= x < 2 ^ 32 - 1 ->
  exists r, cto tc x = Some r /\ 0 <= r < 32 /\ lowest_clear x r.
Proof.
  intros Hc Hx. exists (ctz_ref (not32 x)). split.
  - apply Hc. rewrite not32_eq; lia.
  - apply cto_ref_spec, Hx.
Qed.

(** Where [ctz] is defined through [ffs] or as [ctz_debruijn], it meets the
    contract on every 32-bit operand, zero included. *)
Lemma ctz_guarded_contract tc x :
  tc = STRINGS_H \/ tc = PORTABLE -> is_u32 x ->
  exists r, ctz tc x = Some r /\ ctz_contract x r.
Proof.
  intros Htc Hx. exists (ctz_ref x). split.
  - destruct (Z.eq_dec x 0) as [->|Hne];
      [destruct Htc as [->| ->]; reflexivity|].
    destruct Htc as [->| ->];
      [apply conforming_STRINGS_H | apply conforming_PORTABLE];
      unfold is_u32 in Hx; lia.
  - apply ctz_ref_contract, Hx.
Qed.

(** The other definitions of [ctz] test for zero before the scan. *)
Example ctz_zero_guarded :
  ctz MSC 0 = Some 32 /\ ctz STRINGS_H 0 = Some 32 /\
  ctz PORTABLE 0 = Some 32.
Proof. repeat split. Qed.

(** [main] asserts [ctz(0x00000F00) == 8]; the definition under [_MSC_VER]
    scans from the most significant bit. *)
Example ctz_MSC_scans_from_the_top : ctz MSC 0x00000F00 = Some 11.
Proof. reflexivity. Qed.

(** The assertions of [main] on [ctz] at nonzero operands. *)
Example main_ctz_assertions :
  ctz GNUC 0x80000000 = Some 31 /\ ctz GNUC 0x00000F00 = Some 8 /\
  ctz GNUC 1 = Some 0 /\ ctz GNUC 0xF = Some 0 /\ ctz GNUC 0xFF = Some 0 /\
  ctz GNUC 0xFFFFFFFF = Some 0.
Proof. repeat split. Qed.

(** ** The bits the solver steps over *)

(** From [n = N >> a], [n >>= ctz(n)] and [n >>= cto(n)] step over a run
    of zeros and a run of ones of [N]. *)
Lemma segment_of_run N a n :
  0 <= a -> n = Z.shiftr N a -> 0 < n < 2 ^ 31 ->
  segment N a (ctz_ref n) (ctz_ref (not32 (skip_zeros n))) /\
  skip_zeros n = Z.shiftr N (a + ctz_ref n) /\
  skip_ones (skip_zeros n) =
  Z.shiftr N (a + ctz_ref n + ctz_ref (not32 (skip_zeros n))).
Proof.
  intros Ha En Hn.
  destruct (skip_zeros_spec n Hn) as (Hr & [Hzt Hzl] & Hz & Hodd).
  destruct (skip_ones_spec (skip_zeros n)) as (Ho & [Hot Hol] & _);
    [lia | trivial |].
  assert (E1 : skip_zeros n = Z.shiftr N (a + ctz_ref n)).
  { unfold skip_zeros. rewrite En at 1. apply Z.shiftr_shiftr. lia. }
  assert (Hbit : forall j, 0 <= j -> Z.testbit n j = Z.testbit N (j + a)).
  { intros j Hj. rewrite En. apply Z.shiftr_spec. trivial. }
  assert (Hbit1 : forall j, 0 <= j ->
            Z.testbit (skip_zeros n) j = Z.testbit N (j + (a + ctz_ref n))).
  { intros j Hj. rewrite E1. apply Z.shiftr_spec. trivial. }
  split; [|split; trivial].
  - unfold segment. repeat split; try lia.
    + intros j Hj. replace j with (j - a + a) by lia.
      rewrite <- Hbit by lia. apply Hzl. lia.
    + intros j Hj. replace j with (j - (a + ctz_ref n) + (a + ctz_ref n)) by lia.
      rewrite <- Hbit1 by lia. apply Hol. lia.
    + replace (a + ctz_ref n + ctz_ref (not32 (skip_zeros n)))
        with (ctz_ref (not32 (skip_zeros n)) + (a + ctz_ref n)) by lia.
      rewrite <- Hbit1 by lia. exact Hot.
  - unfold skip_ones at 1. rewrite E1 at 1. apply Z.shiftr_shiftr. lia.
Qed.

(** A gap that ends inside a segment is the segment's run of zeros. *)
Lemma segment_gap N a tz o q len :
  segment N a tz o -> is_gap N q len ->
  a <= q + len < a + tz + o ->
  q + len = a + tz /\ q <= a.
Proof.
  intros (Ha & Htz & Ho & Hz & Hone & Hend) (Hq & Hlen & Hlo & Hgap & Hhi) Hr.
  assert (Hgl : Z.testbit N (q + len - 1) = false) by (apply Hgap; lia).
  assert (E : q + len = a + tz).
  { destruct (Z.lt_ge_cases (q + len) (a + tz)); [bitclash|].
    destruct (Z.lt_ge_cases (a + tz) (q + len)); [bitclash|]. lia. }
  split; trivial.
  destruct (Z.le_gt_cases q a); trivial. bitclash.
Qed.

Lemma segment_gap_below N a tz o q len :
  segment N a tz o -> 1 <= a -> Z.testbit N (a - 1) = true ->
  is_gap N q len -> q + len < a + tz + o ->
  q + len < a \/ (q = a /\ len = tz).
Proof.
  intros Hs Ha Hbelow Hg Hr.
  destruct (Z.lt_ge_cases (q + len) a) as [|Hge]; [left; trivial|right].
  destruct (segment_gap N a tz o q len Hs Hg) as [E Hqa]; [lia|].
  destruct Hg as (Hq & Hlen & Hlo & Hgap & Hhi).
  destruct (Z.eq_dec q a); [lia|]. bitclash.
Qed.

(** The invariant, for an input of the domain. *)
Section Domain.

Variable N : Z.
Hypothesis HN : 1 <= N < 2 ^ 31.

Lemma loop_inv_init :
  loop_inv N (ctz_ref N + ctz_ref (not32 (skip_zeros N)))
           (skip_ones (skip_zeros N)) 0.
Proof.
  destruct (segment_of_run N 0 N) as (Hs & _ & E); try lia.
  { symmetry. apply Z.shiftr_0_r. }
  simpl in E. pose proof Hs as (_ & Htz & Ho & Hz & Hone & Hend).
  simpl in Hz, Hone, Hend.
  unfold loop_inv. repeat split; trivial; try lia.
  - apply Hone. lia.
  - intros q len Hg Hlt. exfalso.
    destruct (segment_gap N 0 _ _ q len Hs Hg) as [_ Hq]; [|destruct Hg; lia].
    destruct Hg; lia.
Qed.

Lemma loop_inv_range p n max : loop_inv N p n max -> 0 <= n < 2 ^ 31.
Proof.
  intros (Hp & En & _). subst n.
  pose proof (shiftr_bounds N p). lia.
Qed.

Lemma loop_inv_gap p n max :
  loop_inv N p n max -> n <> 0 -> is_gap N p (ctz_ref n).
Proof.
  intros Hinv Hne. pose proof (loop_inv_range p n max Hinv) as Hr.
  destruct Hinv as (Hp & En & Hlo & Hpz & _).
  destruct (segment_of_run N p n) as ((_ & Htz & Ho & Hz & Hone & _) & _);
    try lia.
  unfold is_gap. repeat split; trivial.
  - destruct (Z.eq_dec (ctz_ref n) 0) as [E|]; [|lia].
    assert (Z.testbit N p = true) by (apply Hone; lia). bitclash.
  - apply Hone. lia.
Qed.

Lemma loop_inv_step p n max :
  loop_inv N p n max -> n <> 0 ->
  loop_inv N (p + ctz_ref n + ctz_ref (not32 (skip_zeros n)))
           (skip_ones (skip_zeros n)) (Z.max (ctz_ref n) max).
Proof.
  intros Hinv Hne. pose proof (loop_inv_range p n max Hinv) as Hr.
  pose proof (loop_inv_gap p n max Hinv Hne) as Hgap.
  destruct Hinv as (Hp & En & Hlo & Hpz & Hmax & Hall & Hex).
  destruct (segment_of_run N p n) as (Hs & _ & E); try lia.
  pose proof Hs as (_ & Htz & Ho & Hz & Hone & Hend).
  unfold loop_inv. repeat split; trivial; try lia.
  - apply Hone. lia.
  - intros q len Hg Hlt.
    destruct (segment_gap_below N p _ _ q len Hs Hp Hlo Hg Hlt) as [Hb|[_ ->]].
    + specialize (Hall q len Hg Hb). lia.
    + lia.
  - destruct (Z.max_spec (ctz_ref n) max) as [[_ ->]|[_ ->]]; trivial.
    right. exists p. exact Hgap.
Qed.

End Domain.

Lemma loop_inv_exit N p max : loop_inv N p 0 max -> longest_gap N max.
Proof.
  intros (Hp & En & Hlo & Hpz & Hmax & Hall & Hex).
  assert (Hhigh : forall j, p <= j -> Z.testbit N j = false).
  { intros j Hj. replace j with (j - p + p) by lia.
    rewrite <- Z.shiftr_spec, <- En by lia. apply Z.bits_0. }
  assert (Hle : forall q len, is_gap N q len -> len <= max).
  { intros q len Hg. apply (Hall q len Hg).
    destruct (Z.lt_ge_cases (q + len) p); trivial.
    destruct Hg as (_ & _ & _ & _ & Hhi). bitclash. }
  split; trivial.
  destruct Hex as [->|Hq]; [right|left; trivial].
  split; trivial. intros q len Hg.
  pose proof (Hle q len Hg). destruct Hg; lia.
Qed.

(** ** The loop *)

Lemma while_loop_O tc n max :
  while_loop tc O n max = if n =? 0 then ret max else (OutOfFuel, []).
Proof. reflexivity. Qed.

Lemma while_loop_S tc fuel n max :
  while_loop tc (S fuel) n max =
  if n =? 0 then ret max
  else (_ <- emit (LoopIter n) ;;
        s <- loop_body tc n max ;;
        while_loop tc fuel (fst s) (snd s)).
Proof. reflexivity. Qed.

(** More fuel does not change a run that returned. *)
Lemma while_loop_fuel_mono tc (fuel : nat) :
  forall n max m tr,
    while_loop tc fuel n max = (Returned m, tr) ->
    forall fuel', (fuel <= fuel')%nat ->
      while_loop tc fuel' n max = (Returned m, tr).
Proof.
  induction fuel as [|fuel IH]; intros n max m tr H fuel' Hle.
  - rewrite while_loop_O in H.
    destruct fuel'; [rewrite while_loop_O | rewrite while_loop_S];
      destruct (n =? 0); trivial; discriminate H.
  - destruct fuel' as [|fuel']; [lia|].
    rewrite while_loop_S in *. destruct (n =? 0); trivial.
    unfold emit in *. rewrite bind_returned in *. cbv beta in *.
    destruct (loop_body tc n max) as [[[n' max']|e| |] trb];
      try (unfold bind in H; cbn [fst snd] in H; discriminate H).
    rewrite bind_returned in *. cbn [fst snd] in *.
    destruct (while_loop tc fuel n' max') as [o tr0] eqn:E.
    cbn [fst snd] in H. injection H as -> <-.
    rewrite (IH _ _ _ _ E fuel') by lia. reflexivity.
Qed.

(** The loop on an input of the domain, for a [ctz] that conforms. *)
Section Run.

Variable tc : toolchain.
Hypothesis Hc : conforming tc.
Variable N : Z.
Hypothesis HN : 1 <= N < 2 ^ 31.

Lemma while_loop_spec :
  forall fuel p n max,
    loop_inv N p n max -> n < 2 ^ Z.of_nat fuel ->
    exists m tr,
      while_loop tc fuel n max = (Returned m, tr) /\
      longest_gap N m /\
      Forall (event_ok tc N) tr /\
      Forall (fun v => v <= n) (heads_of tr) /\
      StronglySorted Z.gt (heads_of tr) /\
      (length (heads_of tr) <= fuel)%nat.
Proof.
  induction fuel as [|fuel IH]; intros p n max Hinv Hlt;
    pose proof (loop_inv_range N HN p n max Hinv) as Hr.
  - assert (n = 0) by (simpl in Hlt; lia). subst n.
    exists max, []. rewrite while_loop_O.
    split; [reflexivity|]. split; [apply (loop_inv_exit N p max Hinv)|].
    repeat split; constructor.
  - rewrite while_loop_S. destruct (Z.eq_dec n 0) as [->|Hne].
    + exists max, [].
      split; [reflexivity|]. split; [apply (loop_inv_exit N p max Hinv)|].
      repeat split; try constructor. simpl. lia.
    + replace (n =? 0) with false by (symmetry; apply Z.eqb_neq; trivial).
      assert (Hn : 0 < n < 2 ^ 31) by lia.
      destruct (skip_zeros_spec n Hn) as (Hrz & _ & Hz & Hodd).
      destruct (skip_ones_spec (skip_zeros n)) as (_ & _ & Ho0 & Ho);
        [lia | trivial |].
      pose proof (not32_range (skip_zeros n)) as Hnot.
      pose proof (loop_inv_step N HN p n max Hinv Hne) as Hinv'.
      destruct (IH _ _ _ Hinv') as (m & tr & E & Hm & Hev & Hhd & Hso & Hlen).
      { rewrite Nat2Z.inj_succ, Z.pow_succ_r in Hlt by lia. lia. }
      exists m, ([LoopIter n] ++
                 [CallCtz n; CallCtz (not32 (skip_zeros n))] ++ tr).
      unfold emit. rewrite bind_returned. cbv beta.
      rewrite loop_body_run, bind_returned by trivial. cbn [fst snd].
      rewrite E. cbn [fst snd].
      split; [reflexivity|]. split; [exact Hm|].
      assert (Hgt : Forall (Z.gt n) (heads_of tr)).
      { apply (Forall_impl _ (P := fun v => v <= skip_ones (skip_zeros n)));
          [intros; lia | exact Hhd]. }
      repeat split.
      * repeat constructor; trivial; try lia.
        exists p, (ctz_ref n).
        split; [apply Hc; lia|]. split; [apply Hinv|].
        fold (skip_zeros n). split; [lia|]. split; [exact Hodd|].
        apply (loop_inv_gap N HN p n max Hinv Hne).
      * cbn. constructor; [lia|].
        apply (Forall_impl _ (P := Z.gt n)); [intros; lia | exact Hgt].
      * cbn. constructor; trivial.
      * change (S (length (heads_of tr)) <= S fuel)%nat. lia.
Qed.

End Run.

Lemma to_unsigned_small N : 0 <= N < 2 ^ 32 -> to_unsigned N = N.
Proof. intros H. apply Z.mod_small. exact H. Qed.

(** The run of [solution] on an input of its domain. *)
Lemma solution_fuel_spec tc fuel N :
  conforming tc -> 1 <= N <= 2147483647 -> (31 <= fuel)%nat ->
  exists m tr,
    solution_fuel tc fuel N = (Returned m, tr) /\
    longest_gap N m /\
    Forall (event_ok tc N) tr /\
    StronglySorted Z.gt (heads_of tr) /\
    (length (heads_of tr) <= fuel)%nat.
Proof.
  intros Hc HN Hfuel.
  assert (HN' : 1 <= N < 2 ^ 31) by lia.
  assert (Hn : 0 < N < 2 ^ 31) by lia.
  destruct (skip_zeros_spec N Hn) as (Hrz & _ & Hz & Hodd).
  destruct (skip_ones_spec (skip_zeros N)) as (_ & _ & Ho0 & Ho);
    [lia | trivial |].
  pose proof (not32_range (skip_zeros N)) as Hnot.
  destruct (while_loop_spec tc Hc N HN' fuel _ _ _ (loop_inv_init N HN'))
    as (m & tr & E & Hm & Hev & _ & Hso & Hlen).
  { apply Z.lt_le_trans with (2 ^ 31); [lia|].
    apply Z.pow_le_mono_r; lia. }
  exists m, ([CallCtz N; CallCtz (not32 (skip_zeros N))] ++ tr).
  unfold solution_fuel.
  replace (N <? 1) with false by (symmetry; apply Z.ltb_ge; lia).
  cbv zeta. rewrite to_unsigned_small by lia.
  rewrite strip_run, bind_returned by trivial. rewrite E. cbn [fst snd].
  split; [reflexivity|]. split; [exact Hm|].
  repeat split; trivial.
  repeat constructor; trivial; lia.
Qed.

(** Every toolchain whose [ctz] conforms runs the solver as GCC does. *)
Lemma while_loop_toolchain tc (fuel : nat) :
  conforming tc ->
  forall n max, 0 <= n < 2 ^ 31 ->
    while_loop tc fuel n max = while_loop GNUC fuel n max.
Proof.
  intros Hc. induction fuel as [|fuel IH]; intros n max Hn; [reflexivity|].
  rewrite !while_loop_S. destruct (Z.eq_dec n 0) as [->|Hne]; [reflexivity|].
  replace (n =? 0) with false by (symmetry; apply Z.eqb_neq; trivial).
  assert (Hp : 0 < n < 2 ^ 31) by lia.
  destruct (skip_zeros_spec n Hp) as (_ & _ & Hz & Hodd).
  destruct (skip_ones_spec (skip_zeros n)) as (_ & _ & Ho0 & Ho);
    [lia | trivial |].
  unfold emit. rewrite !bind_returned. cbv beta.
  rewrite !loop_body_run, !bind_returned by (trivial; apply conforming_GNUC).
  cbn [fst snd]. rewrite IH by lia. reflexivity.
Qed.

Lemma solution_fuel_toolchain tc fuel N :
  conforming tc -> 1 <= N <= 2147483647 ->
  solution_fuel tc fuel N = solution_fuel GNUC fuel N.
Proof.
  intros Hc HN. assert (Hn : 0 < N < 2 ^ 31) by lia.
  destruct (skip_zeros_spec N Hn) as (_ & _ & Hz & Hodd).
  destruct (skip_ones_spec (skip_zeros N)) as (_ & _ & Ho0 & Ho);
    [lia | trivial |].
  unfold solution_fuel.
  replace (N <? 1) with false by (symmetry; apply Z.ltb_ge; lia).
  cbv zeta. rewrite to_unsigned_small by lia.
  rewrite !strip_run, !bind_returned by (trivial; apply conforming_GNUC).
  rewrite while_loop_toolchain by (trivial; lia). reflexivity.
Qed.

Lemma solution_STRINGS_H N :
  1 <= N <= 2147483647 -> solution_fuel STRINGS_H 32 N = solution N.
Proof. apply solution_fuel_toolchain, conforming_STRINGS_H. Qed.

Lemma solution_PORTABLE N :
  1 <= N <= 2147483647 -> solution_fuel PORTABLE 32 N = solution N.
Proof. apply solution_fuel_toolchain, conforming_PORTABLE. Qed.

(** With the definition of [ctz] under [_MSC_VER] the solver loses the gap
    of 20 (binary 10100). *)
Example solution_MSC_20 : result (solution_fuel MSC 32 20) = Returned 0.
Proof. reflexivity. Qed.

(** [main]'s assertions on [solution] hold. *)
Example main_solution_assertions :
  forallb (fun a =>
             match result (solution (fst a)) with
             | Returned v => v =? snd a
             | _ => false
             end) main_assertions = true.
Proof. vm_compute. reflexivity. Qed.

(** ** One block of one bits *)

Lemma block_bits lo len j :
  0 <= lo -> 0 <= len -> 0 <= j ->
  Z.testbit (Z.shiftl (Z.ones len) lo) j = true <-> lo <= j < lo + len.
Proof.
  intros Hlo Hlen Hj. rewrite Z.shiftl_spec by trivial.
  rewrite Z.ones_spec_iff by trivial. lia.
Qed.

(** Between two one bits of a single block every bit is a one. *)
Lemma block_convex N a b c :
  at_most_one_block N -> 0 <= a <= b -> b <= c ->
  Z.testbit N a = true -> Z.testbit N c = true -> Z.testbit N b = true.
Proof.
  intros (lo & len & Hlo & Hlen & ->) Hab Hbc Ha Hc.
  apply block_bits in Ha; try lia. apply block_bits in Hc; try lia.
  apply block_bits; lia.
Qed.

Lemma block_no_gap N p len : at_most_one_block N -> ~ is_gap N p len.
Proof.
  intros Hb (Hp & Hlen & Hlo & Hgap & Hhi).
  assert (Z.testbit N p = true).
  { apply (block_convex N (p - 1) p (p + len)); trivial; lia. }
  bitclash.
Qed.

Lemma pow2_one_block k : 0 <= k -> at_most_one_block (2 ^ k).
Proof.
  intros Hk. exists k, 1. split; [lia|]. split; [lia|].
  change (Z.ones 1) with 1. rewrite Z.shiftl_1_l. reflexivity.
Qed.

Lemma ones_one_block k : 0 <= k -> at_most_one_block (Z.ones k).
Proof.
  intros Hk. exists 0, k. split; [lia|]. split; [lia|].
  rewrite Z.shiftl_0_r. reflexivity.
Qed.

(** The gap of 9 (binary 1001), and the longest gap of 529 (binary
    1000010001). *)
Example gap_of_9 : is_gap 9 1 2.
Proof.
  unfold is_gap. repeat split; try lia; try reflexivity.
  intros j Hj. assert (j = 1 \/ j = 2) as [->| ->] by lia; reflexivity.
Qed.

Example longest_gap_of_529 : longest_gap 529 4.
Proof.
  destruct (solution_fuel_spec GNUC 32 529 conforming_GNUC)
    as (m & tr & E & Hm & _); [lia | lia |].
  vm_compute in E. injection E as <- _. exact Hm.
Qed.

(** ** The claims *)

(** C1.  For every N in [1, 2147483647], solution(N) returns the length of
    the longest run of zero bits of N that has a one bit immediately below
    it and a one bit immediately above it, and returns 0 when N has no
    such run. *)
Theorem solution_longest_gap (N : Z) :
  1 <= N <= 2147483647 ->
  exists m, result (solution N) = Returned m /\ longest_gap N m.
Proof.
  intros HN.
  destruct (solution_fuel_spec GNUC 32 N conforming_GNUC HN)
    as (m & tr & E & Hm & _); [lia|].
  exists m. unfold solution. rewrite E. split; [reflexivity | exact Hm].
Qed.

Lemma solution_longest_gap_witness :
  exists m, result (solution 529) = Returned m /\ longest_gap 529 m.
Proof. apply (solution_longest_gap 529). lia. Defined.

(** C2.  In the build that defines ctz by the compiler builtin, ctz(0) does
    not return 32: the builtin is called on zero, where its result is
    undefined; so is cto on the all-ones value, which is ctz(0). *)
Theorem ctz_zero_undefined :
  ctz GNUC 0 = None /\ cto GNUC 4294967295 = None.
Proof. split; reflexivity. Qed.

(** C4.  For every N < 1, solution(N) throws std::out_of_range and returns
    no value; for every N in [1, 2147483647] it returns a value. *)
Theorem solution_throws_below_one (N : Z) :
  (N < 1 -> solution N = (Thrown out_of_range, [])) /\
  (1 <= N <= 2147483647 -> exists m, result (solution N) = Returned m).
Proof.
  split.
  - intros HN. unfold solution, solution_fuel.
    replace (N <? 1) with true by (symmetry; apply Z.ltb_lt; trivial).
    reflexivity.
  - intros HN.
    destruct (solution_fuel_spec GNUC 32 N conforming_GNUC HN)
      as (m & tr & E & _); [lia|].
    exists m. unfold solution. rewrite E. reflexivity.
Qed.

Lemma solution_throws_below_one_witness :
  solution (-7) = (Thrown out_of_range, []) /\
  exists m, result (solution 20) = Returned m.
Proof.
  split.
  - apply (proj1 (solution_throws_below_one (-7))). lia.
  - apply (proj2 (solution_throws_below_one 20)). lia.
Defined.

(** C5.  The literal scenarios: solution(9) = 2, solution(529) = 4,
    solution(20) = 1, solution(15) = 0, solution(32) = 0,
    solution(1041) = 5 and solution(2147483647) = 0. *)
Theorem solution_literals :
  result (solution 9) = Returned 2 /\
  result (solution 529) = Returned 4 /\
  result (solution 20) = Returned 1 /\
  result (solution 15) = Returned 0 /\
  result (solution 32) = Returned 0 /\
  result (solution 1041) = Returned 5 /\
  result (solution 2147483647) = Returned 0.
Proof. repeat split; vm_compute; reflexivity. Qed.

(** C6.  For every N in [1, 2147483647], at every execution of the loop
    body of solution(N), with n the value at its start: n is N without its
    p low bits, ctz(n) returns tz, the value left once the tz zeros are
    shifted out is nonzero (its lowest bit is a one), and the tz zeros are
    a gap of N, with a one bit immediately below and immediately above. *)
Theorem loop_runs_are_enclosed (N : Z) :
  1 <= N <= 2147483647 ->
  forall n, In (LoopIter n) (snd (solution N)) ->
    exists p tz,
      ctz GNUC n = Some tz /\ n = Z.shiftr N p /\
      Z.shiftr n tz <> 0 /\ Z.testbit (Z.shiftr n tz) 0 = true /\
      is_gap N p tz.
Proof.
  intros HN n Hin.
  destruct (solution_fuel_spec GNUC 32 N conforming_GNUC HN)
    as (m & tr & E & _ & Hev & _); [lia|].
  unfold solution in Hin. rewrite E in Hin.
  rewrite Forall_forall in Hev. apply (Hev (LoopIter n) Hin).
Qed.

Lemma loop_runs_are_enclosed_witness :
  exists p tz,
    ctz GNUC 264 = Some tz /\ 264 = Z.shiftr 529 p /\
    Z.shiftr 264 tz <> 0 /\ Z.testbit (Z.shiftr 264 tz) 0 = true /\
    is_gap 529 p tz.
Proof.
  apply (loop_runs_are_enclosed 529); [lia|].
  vm_compute. right. right. left. reflexivity.
Defined.

(** C7, as stated, fails: after the double strip of 9 (binary 1001) the
    value is 4 (binary 100), which is nonzero with lowest bit 0. *)
Lemma strip_lowest_bit_counterexample :
  exists v,
    result (strip GNUC (to_unsigned 9)) = Returned v /\
    ~ (Z.testbit v 0 = true \/ v = 0).
Proof.
  exists 4. split; [reflexivity|]. intros [H|H]; discriminate H.
Qed.

(** C7, amended.  For every N in [1, 2147483647], the value left by the
    initial double strip is N without its p low bits, for some p >= 1; the
    last bit shifted out is a one and the lowest remaining bit is a zero;
    and the value is 0 exactly when the one bits of N are one contiguous
    block. *)
Theorem strip_leaves_even (N : Z) :
  1 <= N <= 2147483647 ->
  exists v p,
    result (strip GNUC (to_unsigned N)) = Returned v /\
    1 <= p /\ v = Z.shiftr N p /\
    Z.testbit N (p - 1) = true /\ Z.testbit v 0 = false /\
    (v = 0 <-> at_most_one_block N).
Proof.
  intros HN.
  assert (HN' : 1 <= N < 2 ^ 31) by lia.
  assert (Hn : 0 < N < 2 ^ 31) by lia.
  pose proof (loop_inv_init N HN') as Hinv.
  pose proof (loop_inv_range N HN' _ _ _ Hinv) as Hr.
  destruct Hinv as (Hp & Ev & Hlo & Hpz & _).
  destruct (segment_of_run N 0 N) as (Hs & _ & _); try lia.
  { symmetry. apply Z.shiftr_0_r. }
  destruct Hs as (_ & Htz & Ho & Hz & Hone & _).
  rewrite !Z.add_0_l in *.
  set (tz := ctz_ref N) in *. set (o := ctz_ref (not32 (skip_zeros N))) in *.
  set (v := skip_ones (skip_zeros N)) in *.
  exists v, (tz + o).
  rewrite to_unsigned_small, strip_run by (try apply conforming_GNUC; lia).
  split; [reflexivity|]. split; [exact Hp|]. split; [exact Ev|].
  split; [exact Hlo|].
  assert (Hbit : forall j, 0 <= j -> Z.testbit v j = Z.testbit N (j + (tz + o))).
  { intros j Hj. rewrite Ev. apply Z.shiftr_spec. trivial. }
  split; [rewrite Hbit by lia; exact Hpz|]. split.
  - intros Hv0. exists tz, o. split; [lia|]. split; [lia|].
    apply Z.bits_inj'. intros j Hj.
    destruct (Z.testbit (Z.shiftl (Z.ones o) tz) j) eqn:Eb.
    + apply block_bits in Eb; try lia. apply Hone. lia.
    + destruct (Z.lt_ge_cases j tz); [apply Hz; lia|].
      destruct (Z.lt_ge_cases j (tz + o)) as [Hlt|Hge].
      * assert (Z.testbit (Z.shiftl (Z.ones o) tz) j = true)
          by (apply block_bits; lia).
        congruence.
      * replace j with (j - (tz + o) + (tz + o)) by lia.
        rewrite <- Hbit, Hv0 by lia. apply Z.bits_0.
  - intros Hb. destruct (Z.eq_dec v 0) as [|Hne]; trivial. exfalso.
    assert (Hv : 0 < v) by lia.
    destruct (lowest_set_ref v Hv) as [Ht _].
    pose proof (lowest_set_nonneg _ _ (lowest_set_ref v Hv)) as Hi.
    rewrite Hbit in Ht by trivial.
    assert (Z.testbit N (tz + o) = true).
    { apply (block_convex N (tz + o - 1) (tz + o) (ctz_ref v + (tz + o)));
        trivial; lia. }
    congruence.
Qed.

Lemma strip_leaves_even_witness :
  exists v p,
    result (strip GNUC (to_unsigned 9)) = Returned v /\
    1 <= p /\ v = Z.shiftr 9 p /\
    Z.testbit 9 (p - 1) = true /\ Z.testbit v 0 = false /\
    (v = 0 <-> at_most_one_block 9).
Proof. apply (strip_leaves_even 9). lia. Defined.

Lemma solution_fuel_mono tc fuel N m tr :
  solution_fuel tc fuel N = (Returned m, tr) ->
  forall fuel', (fuel <= fuel')%nat ->
    solution_fuel tc fuel' N = (Returned m, tr).
Proof.
  unfold solution_fuel. intros H fuel' Hle.
  destruct (N <? 1); [discriminate H|]. cbv zeta in *.
  destruct (strip tc (to_unsigned N)) as [[n|e| |] trs];
    try (unfold bind in H; cbn [fst snd] in H; discriminate H).
  rewrite bind_returned in *.
  destruct (while_loop tc fuel n 0) as [o tr0] eqn:E.
  cbn [fst snd] in H. injection H as -> <-.
  rewrite (while_loop_fuel_mono tc fuel _ _ _ _ E fuel' Hle). reflexivity.
Qed.

(** C8.  For every N in [1, 2147483647], the loop of solution(N)
    terminates: the call returns after at most 32 executions of the loop
    body, the value of n strictly decreases from each execution to the
    next, and no larger bound on the number of executions changes the
    run. *)
Theorem loop_terminates (N : Z) :
  1 <= N <= 2147483647 ->
  (exists m, result (solution N) = Returned m) /\
  (iterations (solution N) <= 32)%nat /\
  StronglySorted Z.gt (loop_values (solution N)) /\
  (forall fuel, (32 <= fuel)%nat -> solution_fuel GNUC fuel N = solution N).
Proof.
  intros HN.
  destruct (solution_fuel_spec GNUC 32 N conforming_GNUC HN)
    as (m & tr & E & _ & _ & Hso & Hlen); [lia|].
  unfold iterations, loop_values, solution. rewrite E. cbn [fst snd result].
  split; [exists m; reflexivity|]. split; [exact Hlen|].
  split; [exact Hso|].
  intros fuel Hfuel. apply (solution_fuel_mono GNUC 32 N m tr E fuel Hfuel).
Qed.

Lemma loop_terminates_witness :
  (exists m, result (solution 1431655765) = Returned m) /\
  (iterations (solution 1431655765) <= 32)%nat /\
  StronglySorted Z.gt (loop_values (solution 1431655765)) /\
  (forall fuel, (32 <= fuel)%nat ->
     solution_fuel GNUC fuel 1431655765 = solution 1431655765).
Proof. apply (loop_terminates 1431655765). lia. Defined.

Lemma solution_of_block N :
  1 <= N <= 2147483647 -> at_most_one_block N ->
  result (solution N) = Returned 0.
Proof.
  intros HN Hb.
  destruct (solution_fuel_spec GNUC 32 N conforming_GNUC HN)
    as (m & tr & E & [_ Hm] & _); [lia|].
  unfold solution. rewrite E. cbn [fst result].
  destruct Hm as [[p Hg]|[-> _]]; [|reflexivity].
  destruct (block_no_gap N p m Hb Hg).
Qed.

(** Powers of two and all-ones values of the domain. *)
Corollary solution_pow2 k :
  0 <= k <= 30 -> result (solution (2 ^ k)) = Returned 0.
Proof.
  intros Hk. apply solution_of_block; [|apply pow2_one_block; lia].
  assert (0 < 2 ^ k) by (apply Z.pow_pos_nonneg; lia).
  assert (2 ^ k <= 2 ^ 30) by (apply Z.pow_le_mono_r; lia). lia.
Qed.

Corollary solution_ones k :
  1 <= k <= 31 -> result (solution (Z.ones k)) = Returned 0.
Proof.
  intros Hk. apply solution_of_block; [|apply ones_one_block; lia].
  rewrite Z.ones_equiv.
  assert (2 ^ 1 <= 2 ^ k) by (apply Z.pow_le_mono_r; lia).
  assert (2 ^ k <= 2 ^ 31) by (apply Z.pow_le_mono_r; lia). lia.
Qed.

(** C9.  For every N in [1, 2147483647] whose one bits are one contiguous
    block, solution(N) returns 0. *)
Theorem single_block_has_no_gap (N : Z) :
  1 <= N <= 2147483647 -> at_most_one_block N ->
  result (solution N) = Returned 0.
Proof.
  intros HN [lo [len (Hlo & Hlen & E)]].
  apply solution_of_block; [exact HN|]. exists lo, len. auto.
Qed.

Lemma single_block_has_no_gap_witness :
  result (solution 96) = Returned 0.
Proof.
  apply (single_block_has_no_gap 96); [lia|].
  exists 5, 2. split; [lia|]. split; [lia|]. reflexivity.
Defined.

Lemma args_of_in x tr : In x (args_of tr) -> In (CallCtz x) tr.
Proof.
  unfold args_of. rewrite in_flat_map. intros ([y|n] & Hin & Hx).
  - destruct Hx as [->|[]]. exact Hin.
  - destruct Hx.
Qed.

(** C10.  For every N in [1, 2147483647], every call of ctz made during
    solution(N), directly or through cto, receives a nonzero 32-bit
    argument, and the call is free of undefined behaviour. *)
Theorem ctz_never_called_on_zero (N : Z) :
  1 <= N <= 2147483647 ->
  Forall (fun x => x <> 0 /\ is_u32 x) (ctz_args (solution N)) /\
  result (solution N) <> Undefined.
Proof.
  intros HN.
  destruct (solution_fuel_spec GNUC 32 N conforming_GNUC HN)
    as (m & tr & E & _ & Hev & _); [lia|].
  unfold ctz_args, solution. rewrite E. cbn [fst snd result].
  split; [|discriminate].
  rewrite Forall_forall in *. intros x Hx.
  pose proof (Hev _ (args_of_in x tr Hx)) as Hok. simpl in Hok.
  unfold is_u32. lia.
Qed.

Lemma ctz_never_called_on_zero_witness :
  Forall (fun x => x <> 0 /\ is_u32 x) (ctz_args (solution 2147483647)) /\
  result (solution 2147483647) <> Undefined.
Proof. apply (ctz_never_called_on_zero 2147483647). lia. Defined.

(** * Further properties *)

(** ** The CTZ variants *)

Lemma ctz_variant_ref f x :
  In f ctz_variants -> is_u32 x -> f x = ctz_ref x.
Proof.
  intros Hf Hx. unfold ctz_variants in Hf. simpl in Hf.
  destruct Hf as [<-|[<-|[<-|[<-|[]]]]].
  - apply ctz_simple_ref, Hx.
  - apply ctz_bits_ref, Hx.
  - apply ctz_bsearch_ref, Hx.
  - apply ctz_debruijn_ref, Hx.
Qed.

(** X1.  Each software variant returns a value in [0, 32] on a 32-bit
    operand, and returns the sentinel 32 only for zero. *)
Theorem ctz_sentinel_only_for_zero (f : Z -> Z) (x : Z) :
  In f ctz_variants -> is_u32 x ->
  0 <= f x <= 32 /\ (f x = 32 <-> x = 0).
Proof.
  intros Hf Hx. rewrite (ctz_variant_ref f x Hf Hx).
  destruct (Z.eq_dec x 0) as [->|Hne].
  - split; [simpl; unfold bits; lia|]. split; reflexivity.
  - assert (Hp : 0 < x < 2 ^ 32) by (unfold is_u32 in Hx; lia).
    pose proof (ctz_ref_range x Hp). split; [lia|]. split; intros; lia.
Qed.

Lemma ctz_sentinel_only_for_zero_witness :
  0 <= ctz_bsearch 40 <= 32 /\ (ctz_bsearch 40 = 32 <-> 40 = 0).
Proof.
  apply (ctz_sentinel_only_for_zero ctz_bsearch 40).
  - simpl. auto.
  - unfold is_u32. lia.
Defined.

Lemma shiftr_shiftl_id x k : 0 <= k -> (forall j, 0 <= j < k -> Z.testbit x j = false) ->
  Z.shiftl (Z.shiftr x k) k = x.
Proof.
  intros Hk Hlow. apply Z.bits_inj'. intros j Hj.
  rewrite Z.shiftl_spec by trivial.
  destruct (Z.lt_ge_cases j k).
  - rewrite Z.testbit_neg_r by lia. symmetry. apply Hlow. lia.
  - rewrite Z.shiftr_spec by lia. f_equal. lia.
Qed.

(** X2.  On a nonzero 32-bit operand each software variant returns the
    exponent of the largest power of two that divides the operand: the
    operand is an odd number times two to that power. *)
Theorem ctz_is_two_adic_valuation (f : Z -> Z) (x : Z) :
  In f ctz_variants -> 0 < x < 2 ^ 32 ->
  x = Z.shiftr x (f x) * 2 ^ f x /\ Z.odd (Z.shiftr x (f x)) = true.
Proof.
  intros Hf Hx. rewrite (ctz_variant_ref f x Hf) by (unfold is_u32; lia).
  pose proof (ctz_ref_range x Hx) as Hr.
  destruct (lowest_set_ref x (proj1 Hx)) as [Ht Hl]. split.
  - rewrite <- Z.shiftl_mul_pow2 by lia. symmetry.
    apply shiftr_shiftl_id; [lia | exact Hl].
  - rewrite <- Z.bit0_odd, Z.shiftr_spec by lia. exact Ht.
Qed.

Lemma ctz_is_two_adic_valuation_witness :
  3840 = Z.shiftr 3840 (ctz_bits 3840) * 2 ^ ctz_bits 3840 /\
  Z.odd (Z.shiftr 3840 (ctz_bits 3840)) = true.
Proof.
  apply (ctz_is_two_adic_valuation ctz_bits 3840); [simpl; auto | lia].
Defined.

Lemma lowest_set_lor x y i j :
  lowest_set x i -> lowest_set y j -> lowest_set (Z.lor x y) (Z.min i j).
Proof.
  intros Hx Hy.
  pose proof (lowest_set_nonneg _ _ Hx). pose proof (lowest_set_nonneg _ _ Hy).
  destruct Hx as [Hxi Hxl], Hy as [Hyj Hyl]. split.
  - rewrite Z.lor_spec.
    destruct (Z.min_spec i j) as [[_ ->]|[_ ->]].
    + rewrite Hxi. reflexivity.
    + rewrite Hyj. apply orb_true_r.
  - intros k Hk. rewrite Z.lor_spec, Hxl, Hyl by lia. reflexivity.
Qed.

(** X3.  On nonzero 32-bit operands, each variant's count for [x | y] is the
    smaller of its counts for x and for y. *)
Theorem ctz_of_or_is_min (f : Z -> Z) (x y : Z) :
  In f ctz_variants -> 0 < x < 2 ^ 32 -> 0 < y < 2 ^ 32 ->
  f (Z.lor x y) = Z.min (f x) (f y).
Proof.
  intros Hf Hx Hy.
  assert (Hb : 0 <= Z.lor x y < 2 ^ 32).
  { split; [apply Z.lor_nonneg; lia|].
    destruct (Z.eq_dec (Z.lor x y) 0) as [->|Hne]; [lia|].
    assert (0 <= Z.lor x y) by (apply Z.lor_nonneg; lia).
    apply Z.log2_lt_pow2; [lia|]. rewrite Z.log2_lor by lia.
    apply Z.max_lub_lt; apply Z.log2_lt_pow2; lia. }
  assert (Hpos : 0 < Z.lor x y).
  { destruct (Z.eq_dec (Z.lor x y) 0) as [E|]; [|lia].
    apply Z.lor_eq_0_iff in E. lia. }
  rewrite !(ctz_variant_ref f) by (trivial; unfold is_u32; lia).
  apply (lowest_set_unique (Z.lor x y)).
  - apply lowest_set_ref, Hpos.
  - apply lowest_set_lor; apply lowest_set_ref; lia.
Qed.

Lemma ctz_of_or_is_min_witness :
  ctz_debruijn (Z.lor 48 40) = Z.min (ctz_debruijn 48) (ctz_debruijn 40).
Proof.
  apply (ctz_of_or_is_min ctz_debruijn 48 40); [simpl; auto | lia | lia].
Defined.

(** X4.  On a nonzero 32-bit operand, [x & -x] in unsigned arithmetic, the
    expression that [ctz_bits] and [ctz_debruijn] start from, is two to the
    power of the index of the lowest set bit. *)
Theorem lowest_bit_isolated (x : Z) :
  0 < x < 2 ^ 32 ->
  exists i, 0 <= i < 32 /\ lowest_set x i /\ Z.land x (neg32 x) = 2 ^ i.
Proof.
  intros Hx. exists (ctz_ref x). split; [apply ctz_ref_range, Hx|].
  split; [apply lowest_set_ref; lia | apply lowbit32, Hx].
Qed.

Lemma lowest_bit_isolated_witness :
  exists i, 0 <= i < 32 /\ lowest_set 3840 i /\ Z.land 3840 (neg32 3840) = 2 ^ i.
Proof. apply (lowest_bit_isolated 3840). lia. Defined.

(** X5.  [index32] is the table that the loop in the comment of
    [ctz_debruijn] generates: for every i in 0..31, the entry at
    [(debruijn32 * (1 << i)) >> 27 & 0x1F] is i; the 32 indices are distinct
    and the table is a permutation of 0..31. *)
Theorem index32_inverts_debruijn :
  (forall i, 0 <= i < 32 ->
     nth (Z.to_nat (Z.land (Z.shiftr (mul32 debruijn32 (Z.shiftl 1 i)) 27) 31))
         index32 0 = i) /\
  length index32 = 32%nat /\ NoDup index32 /\
  (forall v, In v index32 <-> 0 <= v < 32).
Proof.
  split; [|split; [reflexivity|split]].
  - intros i Hi. rewrite Z.shiftl_1_l.
    unfold mul32. rewrite Z.mul_comm. apply (debruijn_index i Hi).
  - unfold index32.
    repeat (constructor; [simpl; intuition discriminate|]). constructor.
  - intros v. split.
    + unfold index32. simpl. intuition (subst; lia).
    + intros Hv.
      assert (H : existsb (Z.eqb v) index32 = true).
      { apply (forall_below (fun v => existsb (Z.eqb v) index32) 32);
          [vm_compute; reflexivity | lia]. }
      apply existsb_exists in H. destruct H as (w & Hw & E).
      apply Z.eqb_eq in E. subst w. exact Hw.
Qed.

Lemma index32_inverts_debruijn_witness :
  nth (Z.to_nat (Z.land (Z.shiftr (mul32 debruijn32 (Z.shiftl 1 8)) 27) 31))
      index32 0 = 8.
Proof. apply (proj1 index32_inverts_debruijn 8). lia. Defined.

(** X6.  For a byte x, [broadcast] returns the word whose four bytes are
    all x, which is 0x01010101 * x without wrap-around. *)
Theorem broadcast_repeats_byte (x : Z) :
  0 <= x < 256 ->
  broadcast x = 16843009 * x /\
  forall k, 0 <= k < 4 ->
    Z.land (Z.shiftr (broadcast x) (8 * k)) 255 = x.
Proof.
  intros Hx.
  assert (E : broadcast x = 16843009 * x).
  { unfold broadcast, mul32, wrap32, bits.
    change (not32 0 / 255) with 16843009. apply Z.mod_small. lia. }
  split; [exact E|]. intros k Hk. rewrite E.
  change 255 with (Z.ones 8). rewrite Z.land_ones, Z.shiftr_div_pow2 by lia.
  assert (Hk' : k = 0 \/ k = 1 \/ k = 2 \/ k = 3) by lia.
  destruct Hk' as [->|[->|[->| ->]]]; simpl (8 * _); simpl (2 ^ _);
    Z.div_mod_to_equations; lia.
Qed.

Lemma broadcast_repeats_byte_witness :
  broadcast 85 = 16843009 * 85 /\
  forall k, 0 <= k < 4 -> Z.land (Z.shiftr (broadcast 85) (8 * k)) 255 = 85.
Proof. apply (broadcast_repeats_byte 85). lia. Defined.

(** ** The platform CTZ *)

Lemma conforming_not_MSC tc : tc <> MSC -> conforming tc.
Proof.
  destruct tc; intros H; try congruence.
  - apply conforming_GNUC.
  - apply conforming_STRINGS_H.
  - apply conforming_PORTABLE.
Qed.

(** X7.  Built with the compiler builtin, with [ffs] or with the fallback,
    [ctz] on a nonzero 32-bit operand returns the index of its lowest set
    bit, a value in 0..31. *)
Theorem ctz_nonzero_lowest_set (tc : toolchain) (x : Z) :
  tc <> MSC -> 0 < x < 2 ^ 32 ->
  exists r, ctz tc x = Some r /\ 0 <= r < 32 /\ lowest_set x r.
Proof.
  intros Htc Hx. apply ctz_nonzero_contract; [apply conforming_not_MSC|]; trivial.
Qed.

Lemma ctz_nonzero_lowest_set_witness :
  exists r, ctz STRINGS_H 3840 = Some r /\ 0 <= r < 32 /\ lowest_set 3840 r.
Proof.
  apply (ctz_nonzero_lowest_set STRINGS_H 3840); [discriminate | lia].
Defined.

(** X8.  In the same builds, [cto] on a 32-bit operand other than the
    all-ones value returns the index of its lowest clear bit, which is the
    length of its trailing run of one bits. *)
Theorem cto_lowest_clear (tc : toolchain) (x : Z) :
  tc <> MSC -> 0 <= x < 2 ^ 32 - 1 ->
  exists r, cto tc x = Some r /\ 0 <= r < 32 /\ lowest_clear x r.
Proof.
  intros Htc Hx. apply cto_below_all_ones; [apply conforming_not_MSC|]; trivial.
Qed.

Lemma cto_lowest_clear_witness :
  exists r, cto GNUC 23 = Some r /\ 0 <= r < 32 /\ lowest_clear 23 r.
Proof. apply (cto_lowest_clear GNUC 23); [discriminate | lia]. Defined.

(** X9.  Built with [ffs] or with the fallback, [ctz] meets the CTZ contract
    on every 32-bit operand, zero included, and [cto] of the all-ones value
    is 32. *)
Theorem ctz_total_where_guarded (tc : toolchain) (x : Z) :
  tc = STRINGS_H \/ tc = PORTABLE -> is_u32 x ->
  (exists r, ctz tc x = Some r /\ ctz_contract x r) /\
  cto tc 4294967295 = Some 32.
Proof.
  intros Htc Hx. split; [apply ctz_guarded_contract; trivial|].
  destruct Htc as [->| ->]; reflexivity.
Qed.

Lemma ctz_total_where_guarded_witness :
  (exists r, ctz PORTABLE 0 = Some r /\ ctz_contract 0 r) /\
  cto PORTABLE 4294967295 = Some 32.
Proof.
  apply (ctz_total_where_guarded PORTABLE 0); [auto | unfold is_u32; lia].
Defined.




(** ** The solver in the other builds *)

(** X11.  On every input of the domain, [solution] built with [ffs] or with
    the fallback makes the same calls and returns the same value as built
    with the compiler builtin. *)
Theorem solution_same_in_conforming_builds (tc : toolchain) (N : Z) :
  tc <> MSC -> 1 <= N <= 2147483647 ->
  solution_fuel tc 32 N = solution N.
Proof.
  intros Htc HN. apply solution_fuel_toolchain; [apply conforming_not_MSC|];
    trivial.
Qed.

Lemma solution_same_in_conforming_builds_witness :
  solution_fuel PORTABLE 32 1041 = solution 1041.
Proof.
  apply (solution_same_in_conforming_builds PORTABLE 1041); [discriminate | lia].
Defined.





(** ** What the solver returns *)

Lemma longest_gap_unique N m m' :
  longest_gap N m -> longest_gap N m' -> m = m'.
Proof.
  intros [H1 E1] [H2 E2].
  destruct E1 as [[p Hp]|[-> Hn1]], E2 as [[q Hq]|[-> Hn2]].
  - apply H2 in Hp. apply H1 in Hq. lia.
  - destruct (Hn2 _ _ Hp).
  - destruct (Hn1 _ _ Hq).
  - reflexivity.
Qed.

Lemma solution_of_longest_gap N m :
  1 <= N <= 2147483647 -> longest_gap N m ->
  result (solution N) = Returned m.
Proof.
  intros HN Hm.
  destruct (solution_fuel_spec GNUC 32 N conforming_GNUC HN)
    as (m0 & tr & E & Hm0 & _); [lia|].
  unfold solution. rewrite E. cbn [fst result].
  f_equal. apply (longest_gap_unique N); trivial.
Qed.

Lemma solution_returns_longest_gap N m :
  1 <= N <= 2147483647 -> result (solution N) = Returned m ->
  longest_gap N m.
Proof.
  intros HN Hr.
  destruct (solution_fuel_spec GNUC 32 N conforming_GNUC HN)
    as (m0 & tr & E & Hm0 & _); [lia|].
  unfold solution in Hr. rewrite E in Hr. cbn [fst result] in Hr.
  injection Hr as <-. exact Hm0.
Qed.

Lemma gap_top N p len : 0 <= N < 2 ^ 31 -> is_gap N p len -> p + len <= 30.
Proof.
  intros HN (_ & _ & _ & _ & Hhi).
  destruct (Z.le_gt_cases (p + len) 30); trivial.
  rewrite (testbit_above N 31 (p + len)) in Hhi by lia. discriminate.
Qed.

(** X13.  On every input of the domain the value returned is between 0 and
    29. *)
Theorem solution_at_most_29 (N : Z) :
  1 <= N <= 2147483647 ->
  exists m, result (solution N) = Returned m /\ 0 <= m <= 29.
Proof.
  intros HN.
  destruct (solution_fuel_spec GNUC 32 N conforming_GNUC HN)
    as (m & tr & E & [_ Hm] & _); [lia|].
  exists m. unfold solution. rewrite E. split; [reflexivity|].
  destruct Hm as [[p Hg]|[-> _]]; [|lia].
  assert (p + m <= 30) by (apply (gap_top N p m); [lia | exact Hg]).
  destruct Hg as (Hp & Hlen & _). lia.
Qed.

Lemma solution_at_most_29_witness :
  exists m, result (solution 1073741825) = Returned m /\ 0 <= m <= 29.
Proof. apply (solution_at_most_29 1073741825). lia. Defined.

Lemma strip_zero_block N :
  1 <= N < 2 ^ 31 -> skip_ones (skip_zeros N) = 0 -> at_most_one_block N.
Proof.
  intros HN Hv.
  destruct (segment_of_run N 0 N) as (Hs & _ & Ev); try lia.
  { symmetry. apply Z.shiftr_0_r. }
  destruct Hs as (_ & Htz & Ho & Hz & Hone & _).
  rewrite !Z.add_0_l in *.
  exists (ctz_ref N), (ctz_ref (not32 (skip_zeros N))).
  split; [lia|]. split; [lia|].
  apply Z.bits_inj'. intros j Hj.
  destruct (Z.testbit (Z.shiftl (Z.ones _) _) j) eqn:Eb.
  - apply block_bits in Eb; try lia. apply Hone. lia.
  - destruct (Z.lt_ge_cases j (ctz_ref N)); [apply Hz; lia|].
    destruct (Z.lt_ge_cases j (ctz_ref N + ctz_ref (not32 (skip_zeros N))))
      as [Hlt|Hge].
    + assert (Z.testbit (Z.shiftl (Z.ones (ctz_ref (not32 (skip_zeros N))))
                                  (ctz_ref N)) j = true)
        by (apply block_bits; lia).
      congruence.
    + set (p := ctz_ref N + ctz_ref (not32 (skip_zeros N))) in *.
      replace j with (j - p + p) by lia.
      rewrite <- Z.shiftr_spec, <- Ev, Hv by lia. apply Z.bits_0.
Qed.

(** X14.  On an input of the domain, [solution] returns 0 exactly when the
    one bits of the input are one contiguous block. *)
Theorem solution_zero_iff_one_block (N : Z) :
  1 <= N <= 2147483647 ->
  (result (solution N) = Returned 0 <-> at_most_one_block N).
Proof.
  intros HN. split; [|apply solution_of_block; exact HN].
  intros Hr. assert (HN' : 1 <= N < 2 ^ 31) by lia.
  destruct (solution_returns_longest_gap N 0 HN Hr) as [Hall _].
  apply strip_zero_block; trivial.
  destruct (Z.eq_dec (skip_ones (skip_zeros N)) 0) as [|Hne]; trivial.
  exfalso.
  pose proof (loop_inv_gap N HN' _ _ _ (loop_inv_init N HN') Hne) as Hg.
  pose proof (Hall _ _ Hg). destruct Hg as (_ & Hlen & _). lia.
Qed.

Lemma solution_zero_iff_one_block_witness :
  result (solution 20) = Returned 0 <-> at_most_one_block 20.
Proof. apply (solution_zero_iff_one_block 20). lia. Defined.

Lemma gap_shiftl N k p len :
  0 <= k -> (is_gap (Z.shiftl N k) (p + k) len <-> is_gap N p len).
Proof.
  intros Hk. unfold is_gap. split.
  - intros (Hp & Hlen & Hlo & Hz & Hhi).
    rewrite Z.shiftl_spec in Hlo, Hhi by lia.
    replace (p + k - 1 - k) with (p - 1) in Hlo by lia.
    replace (p + k + len - k) with (p + len) in Hhi by lia.
    assert (1 <= p).
    { destruct (Z.le_gt_cases 1 p); trivial.
      rewrite Z.testbit_neg_r in Hlo by lia. discriminate. }
    repeat split; trivial.
    intros j Hj. specialize (Hz (j + k) ltac:(lia)).
    rewrite Z.shiftl_spec in Hz by lia.
    replace (j + k - k) with j in Hz by lia. exact Hz.
  - intros (Hp & Hlen & Hlo & Hz & Hhi).
    rewrite !Z.shiftl_spec by lia.
    replace (p + k - 1 - k) with (p - 1) by lia.
    replace (p + k + len - k) with (p + len) by lia.
    repeat split; trivial; try lia.
    intros j Hj. rewrite Z.shiftl_spec by lia. apply Hz. lia.
Qed.

Lemma gap_shiftl_low N k q len :
  0 <= k -> is_gap (Z.shiftl N k) q len -> k + 1 <= q.
Proof.
  intros Hk (Hq & _ & Hlo & _).
  rewrite Z.shiftl_spec in Hlo by lia.
  destruct (Z.le_gt_cases (k + 1) q); trivial.
  rewrite Z.testbit_neg_r in Hlo by lia. discriminate.
Qed.

Lemma longest_gap_shiftl N k m :
  0 <= k -> longest_gap N m -> longest_gap (Z.shiftl N k) m.
Proof.
  intros Hk [Hall Hex]. split.
  - intros q len Hg. pose proof (gap_shiftl_low N k q len Hk Hg).
    replace q with (q - k + k) in Hg by lia.
    apply gap_shiftl in Hg; trivial. apply (Hall _ _ Hg).
  - destruct Hex as [[p Hp]|[-> Hno]].
    + left. exists (p + k). apply gap_shiftl; trivial.
    + right. split; trivial. intros q len Hg.
      pose proof (gap_shiftl_low N k q len Hk Hg).
      replace q with (q - k + k) in Hg by lia.
      apply gap_shiftl in Hg; trivial. apply (Hno _ _ Hg).
Qed.

(** X15.  Trailing zeros do not change the result: for N of the domain and
    k >= 0 with N * 2^k still in the domain, [solution] returns the same
    value on N * 2^k as on N. *)
Theorem solution_ignores_trailing_zeros (N k : Z) :
  1 <= N -> 0 <= k -> N * 2 ^ k <= 2147483647 ->
  result (solution (N * 2 ^ k)) = result (solution N).
Proof.
  intros HN Hk Hle.
  assert (0 < 2 ^ k) by (apply Z.pow_pos_nonneg; lia).
  assert (HN' : 1 <= N <= 2147483647) by nia.
  destruct (solution_fuel_spec GNUC 32 N conforming_GNUC HN')
    as (m & tr & E & Hm & _); [lia|].
  unfold solution at 2. rewrite E. cbn [fst result].
  apply solution_of_longest_gap; [nia|].
  rewrite <- Z.shiftl_mul_pow2 by trivial.
  apply longest_gap_shiftl; trivial.
Qed.

Lemma solution_ignores_trailing_zeros_witness :
  result (solution (529 * 2 ^ 7)) = result (solution 529).
Proof. apply (solution_ignores_trailing_zeros 529 7); lia. Defined.

Lemma two_bits a b i :
  0 <= a < b -> Z.testbit (2 ^ a + 2 ^ b) i = (a =? i) || (b =? i).
Proof.
  intros Hab.
  assert (Hd : Z.land (2 ^ a) (2 ^ b) = 0).
  { apply Z.bits_inj'. intros j _.
    rewrite Z.land_spec, !Z.pow2_bits_eqb, Z.bits_0 by lia.
    destruct (a =? j) eqn:Ea; destruct (b =? j) eqn:Eb; trivial; lia. }
  rewrite (Z.add_nocarry_lxor _ _ Hd), Z.lxor_spec, !Z.pow2_bits_eqb by lia.
  destruct (a =? i) eqn:Ea; destruct (b =? i) eqn:Eb; trivial; lia.
Qed.

(** X16.  For a number with exactly two one bits, at positions a < b <= 30,
    [solution] returns the number of positions between them, b - a - 1. *)
Theorem solution_two_bits (a b : Z) :
  0 <= a < b -> b <= 30 ->
  result (solution (2 ^ a + 2 ^ b)) = Returned (b - a - 1).
Proof.
  intros Hab Hb.
  assert (0 < 2 ^ a) by (apply Z.pow_pos_nonneg; lia).
  assert (2 ^ a < 2 ^ b) by (apply Z.pow_lt_mono_r; lia).
  assert (2 ^ b <= 2 ^ 30) by (apply Z.pow_le_mono_r; lia).
  apply solution_of_longest_gap; [lia|].
  assert (Hgap : forall p len, is_gap (2 ^ a + 2 ^ b) p len ->
                               p = a + 1 /\ len = b - a - 1).
  { intros p len (Hp & Hlen & Hlo & _ & Hhi).
    rewrite two_bits in Hlo, Hhi by trivial.
    apply orb_true_iff in Hlo, Hhi.
    rewrite !Z.eqb_eq in Hlo, Hhi. lia. }
  split.
  - intros p len Hg. destruct (Hgap p len Hg). lia.
  - destruct (Z.eq_dec b (a + 1)) as [->|Hne].
    + right. split; [lia|]. intros p len Hg.
      destruct (Hgap p len Hg). destruct Hg as (_ & Hlen & _). lia.
    + left. exists (a + 1). unfold is_gap.
      rewrite !two_bits by trivial.
      replace (a + 1 - 1) with a by lia.
      replace (a + 1 + (b - a - 1)) with b by lia.
      rewrite !Z.eqb_refl, orb_true_r. repeat split; trivial; try lia.
      intros j Hj. rewrite two_bits by trivial.
      apply orb_false_iff. split; apply Z.eqb_neq; lia.
Qed.

Lemma solution_two_bits_witness :
  result (solution (2 ^ 0 + 2 ^ 30)) = Returned (30 - 0 - 1).
Proof. apply (solution_two_bits 0 30); lia. Defined.

Lemma gap_above_low_one N q len :
  0 <= N -> is_gap (2 * N + 1) q len ->
  (q = 1 /\ lowest_set N len) \/ (2 <= q /\ is_gap N (q - 1) len).
Proof.
  intros HN (Hq & Hlen & Hlo & Hz & Hhi).
  assert (Hbit : forall j, 1 <= j ->
            Z.testbit (2 * N + 1) j = Z.testbit N (j - 1)).
  { intros j Hj. replace j with (Z.succ (j - 1)) at 1 by lia.
    apply Z.testbit_odd_succ. lia. }
  rewrite Hbit in Hhi by lia.
  destruct (Z.eq_dec q 1) as [->|Hne].
  - left. split; trivial. split.
    + replace (1 + len - 1) with len in Hhi by lia. exact Hhi.
    + intros j Hj. specialize (Hz (j + 1) ltac:(lia)).
      rewrite Hbit in Hz by lia. replace (j + 1 - 1) with j in Hz by lia.
      exact Hz.
  - right. split; [lia|]. rewrite Hbit in Hlo by lia.
    unfold is_gap. repeat split; trivial; try lia.
    + intros j Hj. specialize (Hz (j + 1) ltac:(lia)).
      rewrite Hbit in Hz by lia. replace (j + 1 - 1) with j in Hz by lia.
      exact Hz.
    + replace (q - 1 + len) with (q + len - 1) by lia. exact Hhi.
Qed.

Lemma gap_under_low_one N p len :
  is_gap N p len -> is_gap (2 * N + 1) (p + 1) len.
Proof.
  intros (Hp & Hlen & Hlo & Hz & Hhi).
  assert (Hbit : forall j, 1 <= j ->
            Z.testbit (2 * N + 1) j = Z.testbit N (j - 1)).
  { intros j Hj. replace j with (Z.succ (j - 1)) at 1 by lia.
    apply Z.testbit_odd_succ. lia. }
  unfold is_gap. rewrite !Hbit by lia.
  replace (p + 1 - 1 - 1) with (p - 1) by lia.
  replace (p + 1 + len - 1) with (p + len) by lia.
  repeat split; trivial; try lia.
  intros j Hj. rewrite Hbit by lia. apply Hz. lia.
Qed.

Lemma gap_first_run N tz :
  lowest_set N tz -> 1 <= tz -> is_gap (2 * N + 1) 1 tz.
Proof.
  intros [Ht Hl] Htz.
  assert (Hbit : forall j, 1 <= j ->
            Z.testbit (2 * N + 1) j = Z.testbit N (j - 1)).
  { intros j Hj. replace j with (Z.succ (j - 1)) at 1 by lia.
    apply Z.testbit_odd_succ. lia. }
  unfold is_gap. repeat split; trivial; try lia.
  - apply Z.testbit_odd_0.
  - intros j Hj. rewrite Hbit by lia. apply Hl. lia.
  - rewrite Hbit by lia. replace (1 + tz - 1) with tz by lia. exact Ht.
Qed.

(** X17.  Appending a one bit below N encloses the trailing zeros of N:
    for N and 2N + 1 in the domain, [solution] on 2N + 1 returns the larger
    of what it returns on N and what [ctz] returns on N. *)
Theorem solution_append_one (N : Z) :
  1 <= N <= 1073741823 ->
  exists m tz,
    result (solution N) = Returned m /\ ctz GNUC N = Some tz /\
    result (solution (2 * N + 1)) = Returned (Z.max m tz).
Proof.
  intros HN.
  destruct (solution_fuel_spec GNUC 32 N conforming_GNUC)
    as (m & tr & E & [Hall Hex] & _); [lia | lia |].
  assert (Hl : lowest_set N (ctz_ref N)) by (apply lowest_set_ref; lia).
  pose proof (lowest_set_nonneg _ _ Hl) as Htz.
  assert (Hm0 : 0 <= m).
  { destruct Hex as [[p (_ & Hlen & _)]|[-> _]]; lia. }
  exists m, (ctz_ref N). unfold solution at 1. rewrite E.
  split; [reflexivity|]. split; [apply conforming_GNUC; lia|].
  apply solution_of_longest_gap; [lia|]. split.
  - intros q len Hg.
    destruct (gap_above_low_one N q len ltac:(lia) Hg) as [[_ Hl']|[_ Hg']].
    + rewrite (lowest_set_unique N len (ctz_ref N) Hl' Hl). lia.
    + pose proof (Hall _ _ Hg'). lia.
  - destruct (Z.max_spec m (ctz_ref N)) as [[Hlt ->]|[Hge ->]].
    + left. exists 1. apply gap_first_run; [exact Hl | lia].
    + destruct Hex as [[p Hp]|[-> Hno]].
      * left. exists (p + 1). apply gap_under_low_one, Hp.
      * right. split; trivial. intros q len Hg.
        destruct (gap_above_low_one N q len ltac:(lia) Hg) as [[_ Hl']|[_ Hg']].
        -- pose proof (lowest_set_unique N len (ctz_ref N) Hl' Hl).
           destruct Hg as (_ & Hlen & _). lia.
        -- apply (Hno _ _ Hg').
Qed.

Lemma solution_append_one_witness :
  exists m tz,
    result (solution 264) = Returned m /\ ctz GNUC 264 = Some tz /\
    result (solution (2 * 264 + 1)) = Returned (Z.max m tz).
Proof. apply (solution_append_one 264). lia. Defined.

(** ** How long the loop runs *)

Lemma while_loop_quarter tc N :
  conforming tc -> 1 <= N < 2 ^ 31 ->
  forall fuel p n max,
    loop_inv N p n max -> n < 4 ^ Z.of_nat fuel ->
    exists m tr,
      while_loop tc fuel n max = (Returned m, tr) /\
      (length (heads_of tr) <= fuel)%nat /\
      length (args_of tr) = (2 * length (heads_of tr))%nat.
Proof.
  intros Hc HN. induction fuel as [|fuel IH]; intros p n max Hinv Hlt;
    pose proof (loop_inv_range N HN p n max Hinv) as Hr.
  - assert (n = 0) by (simpl in Hlt; lia). subst n.
    exists max, []. split; [reflexivity | simpl; lia].
  - rewrite while_loop_S. destruct (Z.eq_dec n 0) as [->|Hne].
    + exists max, []. split; [reflexivity | simpl; lia].
    + replace (n =? 0) with false by (symmetry; apply Z.eqb_neq; trivial).
      assert (Hn : 0 < n < 2 ^ 31) by lia.
      destruct (skip_zeros_spec n Hn) as (Hrz & [Hzt Hzl] & Hz & Hodd).
      destruct (skip_ones_spec (skip_zeros n)) as (_ & _ & Ho0 & Ho);
        [lia | trivial |].
      assert (Heven : Z.testbit n 0 = false).
      { destruct Hinv as (Hp & -> & _ & Hpz & _).
        rewrite Z.shiftr_spec by lia. exact Hpz. }
      assert (Htz : 1 <= ctz_ref n).
      { destruct (Z.eq_dec (ctz_ref n) 0) as [E|]; [|lia].
        rewrite E in Hzt. congruence. }
      assert (Hhalf : 2 * skip_zeros n <= n) by (apply shiftr_halves; lia).
      destruct (IH _ _ _ (loop_inv_step N HN p n max Hinv Hne))
        as (m & tr & E & Hlen & Hargs).
      { rewrite Nat2Z.inj_succ, Z.pow_succ_r in Hlt by lia. lia. }
      exists m, ([LoopIter n] ++
                 [CallCtz n; CallCtz (not32 (skip_zeros n))] ++ tr).
      unfold emit. rewrite bind_returned. cbv beta.
      rewrite loop_body_run, bind_returned by trivial. cbn [fst snd].
      rewrite E. cbn [fst snd]. split; [reflexivity|]. split.
      * change (S (length (heads_of tr)) <= S fuel)%nat. lia.
      * change (S (S (length (args_of tr))) =
                2 * S (length (heads_of tr)))%nat. lia.
Qed.

(** X18.  On every input of the domain the loop body of [solution] is
    executed at most 15 times: a bound of 15 executions gives the same run
    as the bound of 32. *)
Theorem loop_runs_at_most_15_times (N : Z) :
  1 <= N <= 2147483647 ->
  (iterations (solution N) <= 15)%nat /\
  solution_fuel GNUC 15 N = solution N.
Proof.
  intros HN.
  assert (HN' : 1 <= N < 2 ^ 31) by lia.
  assert (Hn : 0 < N < 2 ^ 31) by lia.
  destruct (skip_zeros_spec N Hn) as (_ & _ & Hz & Hodd).
  destruct (skip_ones_spec (skip_zeros N)) as (_ & _ & Ho0 & Ho);
    [lia | trivial |].
  destruct (while_loop_quarter GNUC N conforming_GNUC HN' 15 _ _ _
              (loop_inv_init N HN')) as (m & tr & E & Hlen & _).
  { change (4 ^ Z.of_nat 15) with 1073741824. lia. }
  assert (E15 : solution_fuel GNUC 15 N =
                (Returned m,
                 [CallCtz N; CallCtz (not32 (skip_zeros N))] ++ tr)).
  { unfold solution_fuel.
    replace (N <? 1) with false by (symmetry; apply Z.ltb_ge; lia).
    cbv zeta. rewrite to_unsigned_small by lia.
    rewrite strip_run, bind_returned by (trivial; apply conforming_GNUC).
    rewrite E. reflexivity. }
  assert (E32 : solution N =
                (Returned m,
                 [CallCtz N; CallCtz (not32 (skip_zeros N))] ++ tr)).
  { apply (solution_fuel_mono GNUC 15 N _ _ E15 32). lia. }
  rewrite E15, E32. split; [|reflexivity].
  unfold iterations, loop_values. cbn [snd]. exact Hlen.
Qed.

Lemma loop_runs_at_most_15_times_witness :
  (iterations (solution 1431655765) <= 15)%nat /\
  solution_fuel GNUC 15 1431655765 = solution 1431655765.
Proof. apply (loop_runs_at_most_15_times 1431655765). lia. Defined.

(** X19.  On every input of the domain, [solution] calls [ctz] twice
    before the loop and twice in every execution of the loop body, cto's
    calls included: at most 32 calls. *)
Theorem ctz_call_count (N : Z) :
  1 <= N <= 2147483647 ->
  length (ctz_args (solution N)) = (2 + 2 * iterations (solution N))%nat /\
  (length (ctz_args (solution N)) <= 32)%nat.
Proof.
  intros HN.
  assert (HN' : 1 <= N < 2 ^ 31) by lia.
  assert (Hn : 0 < N < 2 ^ 31) by lia.
  destruct (skip_zeros_spec N Hn) as (_ & _ & Hz & Hodd).
  destruct (skip_ones_spec (skip_zeros N)) as (_ & _ & Ho0 & Ho);
    [lia | trivial |].
  destruct (while_loop_quarter GNUC N conforming_GNUC HN' 15 _ _ _
              (loop_inv_init N HN')) as (m & tr & E & Hlen & Hargs).
  { change (4 ^ Z.of_nat 15) with 1073741824. lia. }
  assert (E15 : solution_fuel GNUC 15 N =
                (Returned m,
                 [CallCtz N; CallCtz (not32 (skip_zeros N))] ++ tr)).
  { unfold solution_fuel.
    replace (N <? 1) with false by (symmetry; apply Z.ltb_ge; lia).
    cbv zeta. rewrite to_unsigned_small by lia.
    rewrite strip_run, bind_returned by (trivial; apply conforming_GNUC).
    rewrite E. reflexivity. }
  assert (E32 : solution N =
                (Returned m,
                 [CallCtz N; CallCtz (not32 (skip_zeros N))] ++ tr)).
  { apply (solution_fuel_mono GNUC 15 N _ _ E15 32). lia. }
  rewrite E32. unfold ctz_args, iterations, loop_values. cbn [snd].
  change (args_of ([CallCtz N; CallCtz (not32 (skip_zeros N))] ++ tr))
    with (N :: not32 (skip_zeros N) :: args_of tr).
  change (heads_of ([CallCtz N; CallCtz (not32 (skip_zeros N))] ++ tr))
    with (heads_of tr).
  simpl length. lia.
Qed.

Lemma ctz_call_count_witness :
  length (ctz_args (solution 529)) = (2 + 2 * iterations (solution 529))%nat /\
  (length (ctz_args (solution 529)) <= 32)%nat.
Proof. apply (ctz_call_count 529). lia. Defined.

(** The bound is reached on 0x55555555. *)
Example fifteen_iterations_reached :
  iterations (solution 0x55555555) = 15%nat.
Proof. vm_compute. reflexivity. Qed.

(** ** The self-test *)

(** X20.  In the build with the compiler builtin, every assertion of
    [main] on [count_gap_zeros] holds, and so does every assertion of
    [main] on [ctz] at a nonzero operand. *)
Theorem main_assertions_hold :
  Forall (fun a => result (solution (fst a)) = Returned (snd a))
         main_assertions /\
  ctz GNUC 0x80000000 = Some 31 /\ ctz GNUC 0x00000F00 = Some 8 /\
  ctz GNUC 1 = Some 0 /\ ctz GNUC 0xF = Some 0 /\ ctz GNUC 0xFF = Some 0 /\
  ctz GNUC 0xFFFFFFFF = Some 0.
Proof.
  split; [|repeat split].
  apply Forall_forall. intros a Ha.
  pose proof main_solution_assertions as H. rewrite forallb_forall in H.
  specialize (H a Ha). destruct (result (solution (fst a))); try discriminate.
  apply Z.eqb_eq in H. congruence.
Qed.

(** ** The population count *)

Lemma testbit_split A B i :
  0 <= A < 2 ^ 16 -> 0 <= i ->
  Z.testbit (A + 2 ^ 16 * B) i =
  if i <? 16 then Z.testbit A i else Z.testbit B (i - 16).
Proof.
  intros HA Hi. destruct (i <? 16) eqn:E.
  - apply Z.ltb_lt in E.
    rewrite <- (Z.mod_pow2_bits_low (A + 2 ^ 16 * B) 16 i) by lia.
    replace (A + 2 ^ 16 * B) with (A + B * 2 ^ 16) by lia.
    rewrite Z.mod_add, Z.mod_small by lia. reflexivity.
  - apply Z.ltb_ge in E. replace i with (i - 16 + 16) at 1 by lia.
    rewrite <- Z.shiftr_spec, Z.shiftr_div_pow2 by lia.
    replace (A + 2 ^ 16 * B) with (A + B * 2 ^ 16) by lia.
    rewrite Z.div_add, Z.div_small by lia. reflexivity.
Qed.

Lemma land_bound a m k :
  0 <= a -> 0 <= m < 2 ^ k -> 0 <= Z.land a m < 2 ^ k.
Proof.
  intros Ha Hm.
  assert (H0 : 0 <= Z.land a m) by (apply Z.land_nonneg; lia).
  split; trivial.
  destruct (Z.eq_dec (Z.land a m) 0) as [->|Hne]; [lia|].
  assert (0 < m).
  { destruct (Z.eq_dec m 0) as [->|]; [|lia]. rewrite Z.land_0_r in Hne. lia. }
  apply Z.log2_lt_pow2; [lia|].
  pose proof (Z.log2_land a m Ha (proj1 Hm)).
  assert (Z.log2 m < k) by (apply Z.log2_lt_pow2; lia). lia.
Qed.

Lemma land_split A B m n :
  0 <= A < 2 ^ 16 -> 0 <= m < 2 ^ 16 ->
  Z.land (A + 2 ^ 16 * B) (m + 2 ^ 16 * n) =
  Z.land A m + 2 ^ 16 * Z.land B n.
Proof.
  intros HA Hm. pose proof (land_bound A m 16 (proj1 HA) Hm).
  apply Z.bits_inj'. intros i Hi.
  rewrite Z.land_spec, !testbit_split by trivial.
  destruct (i <? 16); rewrite Z.land_spec; reflexivity.
Qed.

Lemma shift_mask_split j A B m n :
  0 <= j <= 16 -> 0 <= A < 2 ^ 16 -> 0 <= m < 2 ^ (16 - j) ->
  Z.land (Z.shiftr (A + 2 ^ 16 * B) j) (m + 2 ^ 16 * n) =
  Z.land (Z.shiftr A j) m + 2 ^ 16 * Z.land (Z.shiftr B j) n.
Proof.
  intros Hj HA Hm.
  assert (Hm16 : 0 <= m < 2 ^ 16).
  { split; [lia|]. apply Z.lt_le_trans with (2 ^ (16 - j)); [lia|].
    apply Z.pow_le_mono_r; lia. }
  pose proof (shiftr_bounds A j (proj1 HA) (proj1 Hj)) as HAj.
  pose proof (land_bound (Z.shiftr A j) m 16 (proj1 HAj) Hm16).
  apply Z.bits_inj'. intros i Hi.
  rewrite Z.land_spec, Z.shiftr_spec, !testbit_split by (trivial; lia).
  destruct (i <? 16) eqn:E.
  - apply Z.ltb_lt in E. rewrite Z.land_spec, Z.shiftr_spec by trivial.
    destruct (i + j <? 16) eqn:E2; [reflexivity|].
    apply Z.ltb_ge in E2.
    rewrite (testbit_above m (16 - j) i) by lia.
    rewrite !andb_false_r. reflexivity.
  - apply Z.ltb_ge in E.
    replace (i + j <? 16) with false by (symmetry; apply Z.ltb_ge; lia).
    rewrite Z.land_spec, Z.shiftr_spec by lia.
    replace (i - 16 + j) with (i + j - 16) by lia. reflexivity.
Qed.

Lemma all_from_spec (P : Z -> bool) (n : nat) :
  forall z, all_from P n z = true ->
    forall i, z <= i < z + Z.of_nat n -> P i = true.
Proof.
  induction n as [|n IH]; intros z H i Hi; [lia|].
  simpl in H. apply andb_true_iff in H. destruct H as [Hz Hrest].
  destruct (Z.eq_dec i z) as [->|Hne]; trivial.
  apply (IH (z + 1) Hrest). lia.
Qed.

Lemma half_ok_all a : 0 <= a < 65536 -> half_ok a = true.
Proof.
  intros Ha. apply (all_from_spec half_ok (Z.to_nat 65536) 0).
  - vm_compute. reflexivity.
  - rewrite Z2Nat.id; lia.
Qed.

Lemma land_low_mask Y c m k :
  0 <= k -> 0 <= m < 2 ^ k -> Z.land (Y + 2 ^ k * c) m = Z.land Y m.
Proof.
  intros Hk Hm. apply Z.bits_inj'. intros i Hi. rewrite !Z.land_spec.
  destruct (Z.lt_ge_cases i k).
  - rewrite <- (Z.mod_pow2_bits_low (Y + 2 ^ k * c) k i) by lia.
    rewrite <- (Z.mod_pow2_bits_low Y k i) by lia.
    replace (Y + 2 ^ k * c) with (Y + c * 2 ^ k) by lia.
    rewrite Z.mod_add; [reflexivity|].
    assert (0 < 2 ^ k) by (apply Z.pow_pos_nonneg; lia). lia.
  - rewrite (testbit_above m k i) by lia. rewrite !andb_false_r. reflexivity.
Qed.

Lemma popcnt_steps x :
  popcnt x =
  let x1 := sub32 x (Z.land (Z.shiftr x 1) 1431655765) in
  let x2 := add32 (Z.land x1 858993459) (Z.land (Z.shiftr x1 2) 858993459) in
  let x3 := Z.land (add32 x2 (Z.shiftr x2 4)) 252645135 in
  Z.shiftr (mul32 x3 16843009) 24.
Proof. reflexivity. Qed.

Lemma pairs_step A B :
  0 <= A < 2 ^ 16 -> 0 <= pairs16 A < 2 ^ 16 -> 0 <= pairs16 B < 2 ^ 16 ->
  sub32 (A + 2 ^ 16 * B) (Z.land (Z.shiftr (A + 2 ^ 16 * B) 1) 1431655765) =
  pairs16 A + 2 ^ 16 * pairs16 B.
Proof.
  intros HA H1A H1B.
  change 1431655765 with (21845 + 2 ^ 16 * 21845).
  rewrite shift_mask_split by lia.
  unfold sub32, wrap32, bits, pairs16 in *. rewrite Z.mod_small; lia.
Qed.

Lemma nibbles_step A B :
  0 <= A < 2 ^ 16 -> 0 <= B ->
  nibbles16 A < 2 ^ 16 -> nibbles16 B < 2 ^ 16 ->
  add32 (Z.land (A + 2 ^ 16 * B) 858993459)
        (Z.land (Z.shiftr (A + 2 ^ 16 * B) 2) 858993459) =
  nibbles16 A + 2 ^ 16 * nibbles16 B.
Proof.
  intros HA HB H2A H2B.
  change 858993459 with (13107 + 2 ^ 16 * 13107).
  rewrite land_split, shift_mask_split by lia.
  assert (0 <= Z.land A 13107) by (apply Z.land_nonneg; lia).
  assert (0 <= Z.land B 13107) by (apply Z.land_nonneg; lia).
  assert (0 <= Z.land (Z.shiftr A 2) 13107) by (apply Z.land_nonneg; lia).
  assert (0 <= Z.land (Z.shiftr B 2) 13107) by (apply Z.land_nonneg; lia).
  unfold add32, wrap32, bits, nibbles16 in *. rewrite Z.mod_small; lia.
Qed.

Lemma octets_step A B :
  0 <= A < 2 ^ 16 -> 0 <= B < 2 ^ 16 ->
  A + Z.shiftr A 4 < 49152 -> B + Z.shiftr B 4 < 49152 ->
  Z.land B 15 <= 4 ->
  Z.land (add32 (A + 2 ^ 16 * B) (Z.shiftr (A + 2 ^ 16 * B) 4)) 252645135 =
  octets16 A + 2 ^ 16 * octets16 B.
Proof.
  intros HA HB HsA HsB Hnib.
  pose proof (shiftr_bounds A 4 (proj1 HA)) as HA4.
  pose proof (shiftr_bounds B 4 (proj1 HB)) as HB4.
  assert (Hn0 : 0 <= Z.land B 15) by (apply Z.land_nonneg; lia).
  assert (EB : B = 16 * Z.shiftr B 4 + Z.land B 15).
  { change 15 with (Z.ones 4).
    rewrite Z.land_ones, Z.shiftr_div_pow2 by lia. apply Z.div_mod. lia. }
  assert (Es : Z.shiftr (A + 2 ^ 16 * B) 4 = Z.shiftr A 4 + 4096 * B).
  { rewrite !Z.shiftr_div_pow2 by lia.
    replace (A + 2 ^ 16 * B) with (A + (4096 * B) * 2 ^ 4) by lia.
    apply Z.div_add. lia. }
  rewrite Es.
  replace (add32 (A + 2 ^ 16 * B) (Z.shiftr A 4 + 4096 * B))
    with ((A + Z.shiftr A 4 + 2 ^ 12 * Z.land B 15) +
          2 ^ 16 * (B + Z.shiftr B 4)).
  2:{ unfold add32, wrap32, bits. symmetry.
      rewrite Z.mod_small by lia. lia. }
  change 252645135 with (3855 + 2 ^ 16 * 3855).
  rewrite land_split by lia.
  rewrite land_low_mask by lia. reflexivity.
Qed.

Lemma sum_step c0 c1 d0 d1 :
  0 <= c0 <= 8 -> 0 <= c1 <= 8 -> 0 <= d0 <= 8 -> 0 <= d1 <= 8 ->
  Z.shiftr (mul32 ((c0 + 256 * c1) + 2 ^ 16 * (d0 + 256 * d1)) 16843009) 24 =
  c0 + c1 + d0 + d1.
Proof.
  intros H0 H1 H2 H3. unfold mul32, wrap32, bits.
  rewrite Z.shiftr_div_pow2 by lia.
  assert (E : ((c0 + 256 * c1 + 2 ^ 16 * (d0 + 256 * d1)) * 16843009)
              mod 2 ^ 32 =
              c0 + 256 * (c0 + c1) + 65536 * (c0 + c1 + d0) +
              16777216 * (c0 + c1 + d0 + d1)).
  { symmetry.
    apply (Z.mod_unique _ _ ((c1 + d0 + d1) + 256 * (d0 + d1) + 65536 * d1));
      lia. }
  rewrite E. symmetry.
  apply (Z.div_unique _ _ _ (c0 + 256 * (c0 + c1) + 65536 * (c0 + c1 + d0)));
    lia.
Qed.

Lemma filter_seq_shift (P : nat -> bool) (k n : nat) :
  forall s,
    length (filter P (seq (s + k) n)) =
    length (filter (fun i => P (i + k)%nat) (seq s n)).
Proof.
  induction n as [|n IH]; intros s; [reflexivity|].
  pose proof (IH (S s)) as E. simpl in E |- *.
  destruct (P (s + k)%nat); simpl; rewrite E; reflexivity.
Qed.

Lemma bit_count_halves x :
  bit_count 32 x = bit_count 16 (x mod 2 ^ 16) + bit_count 16 (Z.shiftr x 16).
Proof.
  unfold bit_count.
  change (seq 0 32) with (seq 0 16 ++ seq (0 + 16) 16).
  rewrite filter_app, length_app, Nat2Z.inj_add, filter_seq_shift.
  f_equal; f_equal; f_equal; apply filter_ext_in; intros i Hi;
    apply in_seq in Hi.
  - symmetry. apply Z.mod_pow2_bits_low. lia.
  - rewrite Z.shiftr_spec by lia. f_equal. lia.
Qed.

Lemma octets_bytes a :
  0 <= a -> a = Z.land a 255 + 256 * Z.shiftr a 8.
Proof.
  intros Ha. change 255 with (Z.ones 8).
  rewrite Z.land_ones, Z.shiftr_div_pow2 by lia.
  change (2 ^ 8) with 256. pose proof (Z.div_mod a 256). lia.
Qed.

(** X21.  For every 32-bit value, [popcnt] returns the number of its one
    bits. *)
Theorem popcnt_counts_one_bits (x : Z) :
  is_u32 x -> popcnt x = bit_count 32 x.
Proof.
  intros Hx. unfold is_u32 in Hx.
  set (A := x mod 2 ^ 16). set (B := Z.shiftr x 16).
  assert (HA : 0 <= A < 2 ^ 16) by (apply Z.mod_pos_bound; lia).
  assert (HB : 0 <= B < 2 ^ 16).
  { unfold B. rewrite Z.shiftr_div_pow2 by lia. split.
    - apply Z.div_pos; lia.
    - apply Z.div_lt_upper_bound; lia. }
  assert (Ex : x = A + 2 ^ 16 * B).
  { unfold A, B. rewrite Z.shiftr_div_pow2 by lia.
    pose proof (Z.div_mod x (2 ^ 16)). lia. }
  rewrite bit_count_halves. fold A B.
  pose proof (half_ok_all A HA) as KA. pose proof (half_ok_all B HB) as KB.
  unfold half_ok in KA, KB. cbv zeta in KA, KB.
  repeat (apply andb_true_iff in KA; destruct KA as [KA ?]).
  repeat (apply andb_true_iff in KB; destruct KB as [KB ?]).
  repeat match goal with
         | H : (_ <=? _) = true |- _ => apply Z.leb_le in H
         | H : (_ <? _) = true |- _ => apply Z.ltb_lt in H
         | H : (_ =? _) = true |- _ => apply Z.eqb_eq in H
         end.
  rewrite popcnt_steps. cbv zeta. clearbody A B. subst x.
  rewrite pairs_step by (change (2 ^ 16) with 65536; lia).
  rewrite nibbles_step by (change (2 ^ 16) with 65536; lia).
  assert (0 <= nibbles16 (pairs16 A)).
  { unfold nibbles16.
    assert (0 <= Z.land (pairs16 A) 13107) by (apply Z.land_nonneg; lia).
    assert (0 <= Z.land (Z.shiftr (pairs16 A) 2) 13107)
      by (apply Z.land_nonneg; lia). lia. }
  assert (0 <= nibbles16 (pairs16 B)).
  { unfold nibbles16.
    assert (0 <= Z.land (pairs16 B) 13107) by (apply Z.land_nonneg; lia).
    assert (0 <= Z.land (Z.shiftr (pairs16 B) 2) 13107)
      by (apply Z.land_nonneg; lia). lia. }
  rewrite octets_step by (change (2 ^ 16) with 65536; lia).
  assert (0 <= octets16 (nibbles16 (pairs16 A)))
    by (apply Z.land_nonneg; lia).
  assert (0 <= octets16 (nibbles16 (pairs16 B)))
    by (apply Z.land_nonneg; lia).
  rewrite (octets_bytes (octets16 (nibbles16 (pairs16 A)))) at 1 by trivial.
  rewrite (octets_bytes (octets16 (nibbles16 (pairs16 B)))) at 1 by trivial.
  assert (0 <= Z.land (octets16 (nibbles16 (pairs16 A))) 255)
    by (apply Z.land_nonneg; lia).
  assert (0 <= Z.land (octets16 (nibbles16 (pairs16 B))) 255)
    by (apply Z.land_nonneg; lia).
  assert (0 <= Z.shiftr (octets16 (nibbles16 (pairs16 A))) 8)
    by (apply Z.shiftr_nonneg; lia).
  assert (0 <= Z.shiftr (octets16 (nibbles16 (pairs16 B))) 8)
    by (apply Z.shiftr_nonneg; lia).
  rewrite sum_step by lia. lia.
Qed.

Lemma popcnt_counts_one_bits_witness : popcnt 3840 = bit_count 32 3840.
Proof. apply (popcnt_counts_one_bits 3840). unfold is_u32. lia. Defined.
